(** * MOA accuracy simulator: a model of [app.py] and its verification

  The program estimates, by simulation, the probability that a rifle of a
  given angular dispersion (in minutes of angle) hits a circular target at
  a given distance.  The model below follows [simulate_shots] statement by
  statement.  Python floats are modelled by the real numbers (exact
  arithmetic); Python integers by [Z]; the module-global random generator by
  an explicit generator value that is threaded through every call.

  Module [Sim] is the function in exact arithmetic.  Module [Checked] is the
  same function with the one failure that float arithmetic adds on finite
  arguments: [x ** 2] raises [OverflowError] when the square leaves the range
  of the floats. *)

From Stdlib Require Import Reals Lra Lia ZArith List Bool.
Import ListNotations.

Open Scope R_scope.

(** ** The [random] module *)

Module Random.

(** A generator is the sequence of values that successive calls of
    [random.random()] return, together with the number of values already
    handed out. *)
Record rng : Type := { draws : nat -> R; consumed : nat }.

(** [random.random()]: the next value of the sequence. *)
Definition random (g : rng) : R * rng :=
  (draws g (consumed g), {| draws := draws g; consumed := S (consumed g) |}).

(** [random.uniform(a, b)] is [a + (b - a) * self.random()]. *)
Definition uniform (a b : R) (g : rng) : R * rng :=
  let (u, g') := random g in (a + (b - a) * u, g').

(** The generator after [k] further calls of [random]. *)
Definition skip (k : nat) (g : rng) : rng :=
  {| draws := draws g; consumed := (consumed g + k)%nat |}.

(** Every value of the sequence lies in [[0, 1)], as [random.random()]
    promises. *)
Definition unit_range (g : rng) : Prop := forall k, 0 <= draws g k < 1.

End Random.

Import Random.

(** ** The [math] module and the built-ins the program uses *)

Module Math.

(** [math.pi] *)
Definition pi : R := PI.

(** [math.radians(x)]: degrees to radians. *)
Definition radians (x : R) : R := x * (pi / 180).

(** [v ** 0.5] for the non-negative [v] the program applies it to: the square
    root (and [0 ** 0.5] is [0]). *)
Definition pow_half (v : R) : R := sqrt v.

(** Rounding to the nearest integer, ties to the even one. *)
Definition round_half_even (x : R) : Z :=
  let f := Int_part x in
  let d := x - IZR f in
  if Rlt_dec d (1 / 2) then f
  else if Rlt_dec (1 / 2) d then (f + 1)%Z
  else if Z.even f then f else (f + 1)%Z.

(** [round(x, ndigits)] *)
Definition round (x : R) (ndigits : nat) : R :=
  IZR (round_half_even (x * 10 ^ ndigits)) / 10 ^ ndigits.

(** [a <= b] on floats, as a boolean. *)
Definition leb (a b : R) : bool := if Rle_dec a b then true else false.

End Math.

(** ** Exceptions *)

Inductive exception : Type := ZeroDivisionError | OverflowError.

Inductive outcome (A : Type) : Type :=
| Returns (a : A)
| Raises (e : exception).

Arguments Returns {A} a.
Arguments Raises {A} e.

(** [a / b] on two Python integers: true division, which raises on a zero
  divisor. *)
Definition truediv (a b : Z) : outcome R :=
if (b =? 0)%Z then Raises ZeroDivisionError else Returns (IZR a / IZR b).

(** ** The range of the floats *)

Module Float.

(** The least magnitude that binary64 rounds to infinity: halfway between the
    largest float, [2^1024 - 2^971], and [2^1024]. *)
Definition overflow_threshold : R := 2 ^ 1024 - 2 ^ 970.

(** [x ** 2] on a float: the square, or [OverflowError] when the square is
    out of range. *)
Definition pow2 (x : R) : outcome R :=
  if Rle_dec overflow_threshold (x ^ 2) then Raises OverflowError
  else Returns (x ^ 2).

End Float.

(** [range(n)] *)
Definition range (n : Z) : list Z := map Z.of_nat (seq 0 (Z.to_nat n)).

(** ** The figure that [simulate_shots] builds *)

Inductive color : Type := green | red.

Inductive trace_name : Type := Hits | Misses.

(** [go.Scatter(x=..., y=..., mode="markers", marker=dict(color=...), name=...)] *)
Record scatter : Type := {
scatter_x : list R;
scatter_y : list R;
marker_color : color;
name : trace_name
}.

(** The circle added by [fig.add_shape(type="circle", ...)]. *)
Record circle : Type := { x0 : R; y0 : R; x1 : R; y1 : R }.

(** The figure: its traces in the order they were added, its shapes, and the
  number printed in the title ["Hit probability: ...%"]. *)
Record figure : Type := {
data : list scatter;
shapes : list circle;
title_percent : R
}.

(** ** [simulate_shots] *)

Module Sim.

Section Simulator.

(** The two module-level globals, read when the function runs. *)
Variable simulation_shots : Z.
Variable shots : Z.

(** The arguments of [simulate_shots]. *)
Variables distance target_size moa : R.

Definition moa_radian : R := Math.radians (moa / 60).

Definition target_radius : R := target_size / 2.

(** The variables the loop updates, and the generator. *)
Record loop_state : Type := {
  hits : Z;
  hits_x : list R;
  hits_y : list R;
  misses_x : list R;
  misses_y : list R;
  gen : rng
}.

Definition initial (g : rng) : loop_state :=
  {| hits := 0; hits_x := []; hits_y := []; misses_x := []; misses_y := [];
     gen := g |}.

(** The first four statements of the loop body: the landing point of one
    shot, and the generator after the two draws. *)
Definition sample (g : rng) : (R * R) * rng :=
  let (radius, g1) := uniform 0 (distance * sin (moa_radian / 2)) g in
  let (angle, g2) := uniform 0 (2 * Math.pi) g1 in
  let x := radius * cos angle in
  let y := radius * sin angle in
  ((x, y), g2).

(** The test of the [if]. *)
Definition is_hit (p : R * R) : bool :=
  Math.leb (Math.pow_half (fst p ^ 2 + snd p ^ 2)) target_radius.

(** One iteration of the loop, for index [i]. *)
Definition body (st : loop_state) (i : Z) : loop_state :=
  let (p, g') := sample (gen st) in
  let (x, y) := p in
  if is_hit (x, y) then
    if (i <? shots)%Z then
      {| hits := hits st + 1;
         hits_x := hits_x st ++ [x]; hits_y := hits_y st ++ [y];
         misses_x := misses_x st; misses_y := misses_y st; gen := g' |}
    else
      {| hits := hits st + 1;
         hits_x := hits_x st; hits_y := hits_y st;
         misses_x := misses_x st; misses_y := misses_y st; gen := g' |}
  else if (i <? shots)%Z then
    {| hits := hits st;
       hits_x := hits_x st; hits_y := hits_y st;
       misses_x := misses_x st ++ [x]; misses_y := misses_y st ++ [y];
       gen := g' |}
  else
    {| hits := hits st;
       hits_x := hits_x st; hits_y := hits_y st;
       misses_x := misses_x st; misses_y := misses_y st; gen := g' |}.

(** [for i in range(simulation_shots): ...] *)
Definition run_loop (g : rng) : loop_state :=
  fold_left body (range simulation_shots) (initial g).

(** [hits / simulation_shots], the hit probability of the run. *)
Definition hit_probability (g : rng) : outcome R :=
  truediv (hits (run_loop g)) simulation_shots.

(** The figure built from the final loop state and the title number. *)
Definition build_figure (st : loop_state) (percent : R) : figure :=
  {| data :=
       [ {| scatter_x := hits_x st; scatter_y := hits_y st;
            marker_color := green; name := Hits |};
         {| scatter_x := misses_x st; scatter_y := misses_y st;
            marker_color := red; name := Misses |} ];
     shapes :=
       [ {| x0 := - target_radius; y0 := - target_radius;
            x1 := target_radius; y1 := target_radius |} ];
     title_percent := percent |}.

(** The whole function: the list [[fig]] it returns, or the exception it
    raises, and the generator it leaves behind. *)
Definition simulate_shots (g : rng) : outcome (list figure) * rng :=
  let st := run_loop g in
  match truediv (hits st) simulation_shots with
  | Raises e => (Raises e, gen st)
  | Returns p => (Returns [build_figure st (Math.round (p * 100) 2)], gen st)
  end.

End Simulator.

End Sim.

(** ** [simulate_shots] with the overflow of [** 2] *)

Module Checked.

Section Simulator.

Variable simulation_shots : Z.
Variable shots : Z.
Variables distance target_size moa : R.

(** [x**2] and then [y**2], the first two operations of the test of the
    [if]: the first that overflows raises. *)
Definition squares (p : R * R) : outcome (R * R) :=
  match Float.pow2 (fst p) with
  | Raises e => Raises e
  | Returns x2 =>
      match Float.pow2 (snd p) with
      | Raises e => Raises e
      | Returns y2 => Returns (x2, y2)
      end
  end.

(** The loop over [indices]: an iteration samples its shot; when a
    square overflows the function is left with the exception, the two draws
    of the iteration used; otherwise the iteration is that of [Sim.body]. *)
Fixpoint run_from (indices : list Z) (st : Sim.loop_state)
  : outcome Sim.loop_state * rng :=
  match indices with
  | [] => (Returns st, Sim.gen st)
  | i :: rest =>
      let (p, g') := Sim.sample distance moa (Sim.gen st) in
      match squares p with
      | Raises e => (Raises e, g')
      | Returns _ =>
          run_from rest (Sim.body shots distance target_size moa st i)
      end
  end.

(** [for i in range(simulation_shots): ...] *)
Definition run_loop (g : rng) : outcome Sim.loop_state * rng :=
  run_from (range simulation_shots) (Sim.initial g).

(** The whole function. *)
Definition simulate_shots (g : rng) : outcome (list figure) * rng :=
  match run_loop g with
  | (Raises e, g') => (Raises e, g')
  | (Returns st, g') =>
      match truediv (Sim.hits st) simulation_shots with
      | Raises e => (Raises e, g')
      | Returns p =>
          (Returns [Sim.build_figure target_size st (Math.round (p * 100) 2)], g')
      end
  end.

End Simulator.

End Checked.

(** The values the module gives its two globals. *)
Definition simulation_shots : Z := 10000.
Definition shots : Z := 100.

(** [simulate_shots(distance, target_size, moa)] as the module runs it. *)
Definition simulate_shots (distance target_size moa : R) (g : rng)
  : outcome (list figure) * rng :=
  Sim.simulate_shots simulation_shots shots distance target_size moa g.

(** ** Vocabulary for the properties of a run *)

Module Run.

(** The landing point of the shot with loop index [i], in a run that starts
    on generator [g]: the loop body's sampling statements, executed on the
    generator as the [i] earlier iterations leave it. *)
Definition shot (distance moa : R) (g : rng) (i : nat) : R * R :=
  fst (Sim.sample distance moa (skip (2 * i) g)).

(** The radius of the dispersion cone at the target: the upper bound the
    loop body passes to [random.uniform] for the radius. *)
Definition max_radius (distance moa : R) : R :=
  distance * sin (Sim.moa_radian moa / 2).

(** The draw that sets the radius of the shot with loop index [i], and the
    draw that sets its angle: the two values the generator hands out during
    iteration [i]. *)
Definition radius_draw (g : rng) (i : nat) : R := draws g (consumed g + 2 * i).

Definition angle_draw (g : rng) (i : nat) : R := draws g (S (consumed g + 2 * i)).

(** The radius drawn for shot [i]. *)
Definition shot_radius (distance moa : R) (g : rng) (i : nat) : R :=
  fst (uniform 0 (max_radius distance moa) (skip (2 * i) g)).

(** The radius draws of the first [k] iterations. *)
Definition radius_draws (g : rng) (k : nat) : list R :=
  map (radius_draw g) (seq 0 k).

(** The fraction of the values [us] that are at most [c]. *)
Definition fraction_below (us : list R) (c : R) : R :=
  INR (length (filter (fun u => Math.leb u c) us)) / INR (length us).

(** The values [us] are spread over [[0, 1]] evenly up to [delta]: every
    interval [[0, c]] holds a fraction of them that differs from its length
    [c] by at most [delta] (a bound on the star discrepancy of [us]). *)
Definition discrepancy_le (us : list R) (delta : R) : Prop :=
  forall c, 0 <= c <= 1 -> Rabs (fraction_below us c - c) <= delta.

(** Whether a square overflows in the test of shot [i]. *)
Definition shot_overflows (distance moa : R) (g : rng) (i : nat) : bool :=
  match Checked.squares (shot distance moa g i) with
  | Raises _ => true
  | Returns _ => false
  end.

(** The first of the iterations [0 .. k-1] in which a square overflows. *)
Definition first_overflow (distance moa : R) (g : rng) (k : nat) : option nat :=
  find (shot_overflows distance moa g) (seq 0 k).

(** The landing points of the first [k] iterations, in loop order. *)
Definition shots_upto (distance moa : R) (g : rng) (k : nat) : list (R * R) :=
  map (shot distance moa g) (seq 0 k).

(** All landing points of a run of [n] shots. *)
Definition all_shots (n : Z) (distance moa : R) (g : rng) : list (R * R) :=
  shots_upto distance moa g (Z.to_nat n).

(** The number of landing points of a run which the test classifies as
    hits. *)
Definition hit_count (n : Z) (distance target_size moa : R) (g : rng) : Z :=
  Z.of_nat (length (filter (Sim.is_hit target_size) (all_shots n distance moa g))).

Definition is_miss (target_size : R) (p : R * R) : bool :=
  negb (Sim.is_hit target_size p).

(** The points of the two scatter traces of a figure. *)
Definition displayed_hits (f : figure) : list (R * R) :=
  match data f with
  | h :: _ => combine (scatter_x h) (scatter_y h)
  | [] => []
  end.

Definition displayed_misses (f : figure) : list (R * R) :=
  match data f with
  | _ :: m :: _ => combine (scatter_x m) (scatter_y m)
  | _ => []
  end.

(** The state in which the loop is after its first [k] iterations, written
    in terms of the landing points. *)
Definition state_after (shots : Z) (distance target_size moa : R)
           (g : rng) (k : nat) : Sim.loop_state :=
  let pts := shots_upto distance moa g k in
  let shown := firstn (Z.to_nat shots) pts in
  {| Sim.hits := Z.of_nat (length (filter (Sim.is_hit target_size) pts));
     Sim.hits_x := map fst (filter (Sim.is_hit target_size) shown);
     Sim.hits_y := map snd (filter (Sim.is_hit target_size) shown);
     Sim.misses_x := map fst (filter (is_miss target_size) shown);
     Sim.misses_y := map snd (filter (is_miss target_size) shown);
     Sim.gen := skip (2 * k) g |}.

End Run.

Import Run.

(** ** Generators used as concrete inputs *)

Module Gen.

(** Every call of [random.random()] returns [u]. *)
Definition constant (u : R) : rng := {| draws := fun _ => u; consumed := 0 |}.

(** Radius draws [u] and angle draws [v], alternately. *)
Definition alternating (u v : R) : rng :=
  {| draws := fun k => if Nat.even k then u else v; consumed := 0 |}.

(** The radius draw of shot [i] is [(i mod n) / n]: the [n] radius draws of a
    run of [n] shots are spread evenly over [[0, 1)].  The angle draw of a
    shot repeats its radius draw. *)
Definition stratified (n : nat) : rng :=
  {| draws := fun k => INR (Nat.div2 k mod n) / INR n; consumed := 0 |}.

(** The radius draw of shot [i] is the [i]-th value of [rs] (0 when [rs] is
    too short), its angle draw is [angles i]. *)
Definition of_draws (rs : list R) (angles : nat -> R) : rng :=
  {| draws := fun k => if Nat.even k then nth (Nat.div2 k) rs 0
                       else angles (Nat.div2 k);
     consumed := 0 |}.

End Gen.

(** ** The radius draws as a random experiment *)

Module Experiment.

(** The values one draw can take when [random.random()] is uniform on the
    grid of [M] equally spaced points of [[0, 1)] (for the generator of the
    [random] module, [M = 2^53]). *)
Definition grid (M : nat) : list R := map (fun k => INR k / INR M) (seq 0 M).

(** All sequences of [n] values of [D]: the equally likely outcomes of [n]
    independent draws from [D]. *)
Fixpoint tuples (D : list R) (n : nat) : list (list R) :=
  match n with
  | O => [[]]
  | S n' => flat_map (fun u => map (cons u) (tuples D n')) D
  end.

(** The share of the outcomes [ts] that satisfy [P]: the probability of [P]. *)
Definition share {A : Type} (P : A -> bool) (ts : list A) : R :=
  INR (length (filter P ts)) / INR (length ts).

(** The sum of [f] over a list. *)
Definition Rsum {A : Type} (f : A -> R) (l : list A) : R :=
  fold_right (fun a acc => f a + acc) 0 l.

(** 1 when [h] holds of [u], 0 otherwise. *)
Definition indicator (h : R -> bool) (u : R) : R := if h u then 1 else 0.

(** The number of values of [rs] of which [h] holds. *)
Definition count (h : R -> bool) (rs : list R) : R := INR (length (filter h rs)).

(** The probability that [h] holds of one draw from [D]. *)
Definition mean (h : R -> bool) (D : list R) : R := count h D / INR (length D).

(** The hit probability that a run of [n] shots reports when its radius draws
    are [rs] (and its angle draws [angles]). *)
Definition estimate (n cap : Z) (distance target_size moa : R)
           (angles : nat -> R) (rs : list R) : R :=
  match Sim.hit_probability n cap distance target_size moa (Gen.of_draws rs angles) with
  | Returns p => p
  | Raises _ => 0
  end.

End Experiment.

(** ** The page: the sliders and the callback *)

(** [dcc.Slider(min=..., max=..., step=..., value=...)]: the numbers of a
    slider (its marks, tooltip and update mode are left out). *)
Record slider : Type := {
  slider_min : R;
  slider_max : R;
  slider_step : R;
  slider_value : R
}.

Definition distance_slider : slider :=
  {| slider_min := 0; slider_max := 2000; slider_step := 50; slider_value := 1000 |}.

Definition target_size_slider : slider :=
  {| slider_min := 0; slider_max := 1; slider_step := 5 / 100; slider_value := 3 / 10 |}.

Definition moa_slider : slider :=
  {| slider_min := 0; slider_max := 5; slider_step := 1 / 10; slider_value := 4 |}.

(** The values a slider can hand to the callback: its minimum plus a whole
    number of steps, up to its maximum. *)
Definition slider_offers (s : slider) (v : R) : Prop :=
  (exists k : nat, v = slider_min s + INR k * slider_step s) /\ v <= slider_max s.

(** [the_callback_function(distance, target_size, moa)] *)
Definition the_callback_function (distance target_size moa : R) (g : rng)
  : outcome (list figure) * rng :=
  let fig1 := simulate_shots distance target_size moa g in
  fig1.

(** The distance of a point from the centre of the target. *)
Definition distance_from_centre (p : R * R) : R := sqrt (fst p ^ 2 + snd p ^ 2).

(** ** Properties of the library functions *)

Section Library.

Lemma random_consumed g : consumed (snd (random g)) = S (consumed g).
Proof. reflexivity. Qed.

Lemma uniform_value a b g :
  fst (uniform a b g) = a + (b - a) * draws g (consumed g).
Proof. reflexivity. Qed.

Lemma uniform_gen a b g : snd (uniform a b g) = skip 1 g.
Proof.
  unfold uniform, random, skip; simpl. f_equal. lia.
Qed.

Lemma skip_skip j k g : skip j (skip k g) = skip (k + j) g.
Proof.
  unfold skip; simpl. f_equal. lia.
Qed.

Lemma skip_0 g : skip 0 g = g.
Proof.
  destruct g as [d c]. unfold skip; simpl. f_equal. lia.
Qed.

Lemma leb_true a b : Math.leb a b = true <-> a <= b.
Proof.
  unfold Math.leb. destruct (Rle_dec a b); split; intros; try easy.
Qed.

Lemma leb_false a b : Math.leb a b = false <-> b < a.
Proof.
  unfold Math.leb. destruct (Rle_dec a b); split; intros; try easy; lra.
Qed.

Lemma range_length n : length (range n) = Z.to_nat n.
Proof.
  unfold range. now rewrite length_map, length_seq.
Qed.

End Library.

(** ** The loop, iteration by iteration *)

Section Loop.

Variables simulation_shots shots : Z.
Variables distance target_size moa : R.

Local Notation "'sample'" := (Sim.sample distance moa).
Local Notation "'is_hit'" := (Sim.is_hit target_size).
Local Notation "'is_miss'" := (Run.is_miss target_size).
Local Notation "'body'" := (Sim.body shots distance target_size moa).
Local Notation "'shot'" := (Run.shot distance moa).
Local Notation "'shots_upto'" := (Run.shots_upto distance moa).
Local Notation "'state_after'" := (Run.state_after shots distance target_size moa).

Lemma sample_value g :
  fst (sample g) =
  let radius := distance * sin (Sim.moa_radian moa / 2) * draws g (consumed g) in
  let angle := 2 * PI * draws g (S (consumed g)) in
  (radius * cos angle, radius * sin angle).
Proof.
  unfold Sim.sample, uniform, random, Math.pi; simpl.
  now rewrite !Rplus_0_l, !Rminus_0_r.
Qed.

Lemma sample_gen g : snd (sample g) = skip 2 g.
Proof.
  unfold Sim.sample, uniform, random, skip; simpl. f_equal. lia.
Qed.

Lemma sample_at k g : sample (skip (2 * k) g) = (shot g k, skip (2 * S k) g).
Proof.
  rewrite (surjective_pairing (sample _)), sample_gen, skip_skip.
  unfold Run.shot. do 2 f_equal. lia.
Qed.

Lemma shots_upto_S g k : shots_upto g (S k) = shots_upto g k ++ [shot g k].
Proof.
  unfold Run.shots_upto. now rewrite seq_S, map_app.
Qed.

Lemma shots_upto_length g k : length (shots_upto g k) = k.
Proof.
  unfold Run.shots_upto. now rewrite length_map, length_seq.
Qed.

Lemma shown_S_in g k :
  (Z.of_nat k < shots)%Z ->
  firstn (Z.to_nat shots) (shots_upto g (S k)) =
  firstn (Z.to_nat shots) (shots_upto g k) ++ [shot g k].
Proof.
  intros H. rewrite !firstn_all2; rewrite ?shots_upto_length; try lia.
  apply shots_upto_S.
Qed.

Lemma shown_S_out g k :
  (shots <= Z.of_nat k)%Z ->
  firstn (Z.to_nat shots) (shots_upto g (S k)) =
  firstn (Z.to_nat shots) (shots_upto g k).
Proof.
  intros H. rewrite shots_upto_S, firstn_app, shots_upto_length.
  replace (Z.to_nat shots - k)%nat with 0%nat by lia.
  now rewrite firstn_O, app_nil_r.
Qed.

Lemma body_state_after g k :
  body (state_after g k) (Z.of_nat k) = state_after g (S k).
Proof.
  unfold Sim.body, Run.state_after; cbn [Sim.gen Sim.hits Sim.hits_x Sim.hits_y
    Sim.misses_x Sim.misses_y].
  rewrite sample_at. destruct (shot g k) as [x y] eqn:Hp.
  assert (Hm : is_miss (x, y) = negb (is_hit (x, y))) by reflexivity.
  destruct (Z.ltb_spec (Z.of_nat k) shots) as [Hi|Hi].
  - rewrite (shown_S_in g k Hi), shots_upto_S, Hp, !filter_app; cbn [filter].
    rewrite Hm. destruct (is_hit (x, y)); cbn [negb];
      rewrite !map_app, !app_nil_r, ?length_app; cbn [map fst snd length];
      f_equal; lia.
  - rewrite (shown_S_out g k Hi), shots_upto_S, Hp, !filter_app; cbn [filter].
    destruct (is_hit (x, y));
      rewrite ?app_nil_r, ?length_app; cbn [length]; f_equal; lia.
Qed.

Lemma fold_body g k :
  fold_left body (map Z.of_nat (seq 0 k)) (Sim.initial g) = state_after g k.
Proof.
  induction k as [|k IH].
  - unfold Run.state_after, Sim.initial; cbn. rewrite firstn_nil; cbn.
    now rewrite skip_0.
  - rewrite seq_S, map_app, fold_left_app, IH; cbn [map fold_left Nat.add].
    apply body_state_after.
Qed.

(** The final state of the loop. *)
Lemma run_loop_state g :
  Sim.run_loop simulation_shots shots distance target_size moa g =
  state_after g (Z.to_nat simulation_shots).
Proof.
  unfold Sim.run_loop, range. apply fold_body.
Qed.

End Loop.

(** ** Counting hits *)

Section Counting.

Context {A : Type} (f : A -> bool).

Lemma filter_none (l : list A) :
  (forall a, In a l -> f a = false) -> filter f l = [].
Proof.
  induction l as [|a l IH]; intros H; cbn; [reflexivity|].
  rewrite (H a (or_introl eq_refl)). apply IH. intros b Hb. apply H. now right.
Qed.

Lemma filter_all (l : list A) :
  (forall a, In a l -> f a = true) -> filter f l = l.
Proof.
  induction l as [|a l IH]; intros H; cbn; [reflexivity|].
  rewrite (H a (or_introl eq_refl)). f_equal. apply IH. intros b Hb. apply H. now right.
Qed.

Lemma filter_length_bound (l : list A) : (length (filter f l) <= length l)%nat.
Proof.
  induction l as [|a l IH]; cbn; [lia|]. destruct (f a); cbn; lia.
Qed.

Lemma filter_partition_length (l : list A) :
  (length (filter f l) + length (filter (fun a => negb (f a)) l) = length l)%nat.
Proof.
  induction l as [|a l IH]; cbn; [reflexivity|]. destruct (f a); cbn; lia.
Qed.

End Counting.

(** ** Rounding *)

Section Rounding.

Lemma Int_part_IZR (z : Z) : Int_part (IZR z) = z.
Proof.
  symmetry. apply Int_part_spec. lra.
Qed.

Lemma round_half_even_IZR (z : Z) : Math.round_half_even (IZR z) = z.
Proof.
  unfold Math.round_half_even. rewrite Int_part_IZR.
  destruct (Rlt_dec (IZR z - IZR z) (1 / 2)) as [_|H]; [reflexivity|].
  exfalso. apply H. lra.
Qed.

(** A number with at most two decimals is left unchanged by [round(_, 2)]. *)
Lemma round_two_decimals (z : Z) : Math.round (IZR z / 100) 2 = IZR z / 100.
Proof.
  unfold Math.round.
  replace (IZR z / 100 * 10 ^ 2) with (IZR z) by (simpl; field).
  rewrite round_half_even_IZR. simpl. field.
Qed.

End Rounding.

(** ** The result of a run *)

Section Result.

Variables simulation_shots shots : Z.
Variables distance target_size moa : R.
Variable g : rng.

Lemma hit_count_bounds :
  (0 <= hit_count simulation_shots distance target_size moa g
     <= Z.max 0 simulation_shots)%Z.
Proof.
  unfold hit_count, all_shots.
  pose proof (filter_length_bound (Sim.is_hit target_size)
                (shots_upto distance moa g (Z.to_nat simulation_shots))) as H.
  rewrite shots_upto_length in H. lia.
Qed.

Lemma run_loop_hits :
  Sim.hits (Sim.run_loop simulation_shots shots distance target_size moa g) =
  hit_count simulation_shots distance target_size moa g.
Proof.
  now rewrite run_loop_state.
Qed.

Lemma run_loop_gen :
  Sim.gen (Sim.run_loop simulation_shots shots distance target_size moa g) =
  skip (2 * Z.to_nat simulation_shots) g.
Proof.
  now rewrite run_loop_state.
Qed.

Lemma hit_probability_value :
  (simulation_shots <> 0)%Z ->
  Sim.hit_probability simulation_shots shots distance target_size moa g =
  Returns (IZR (hit_count simulation_shots distance target_size moa g)
           / IZR simulation_shots).
Proof.
  intros Hn. unfold Sim.hit_probability, truediv. rewrite run_loop_hits.
  destruct (Z.eqb_spec simulation_shots 0); [contradiction|reflexivity].
Qed.

Lemma simulate_shots_value :
  (simulation_shots <> 0)%Z ->
  Sim.simulate_shots simulation_shots shots distance target_size moa g =
  (Returns
     [Sim.build_figure target_size
        (state_after shots distance target_size moa g (Z.to_nat simulation_shots))
        (Math.round
           (IZR (hit_count simulation_shots distance target_size moa g)
            / IZR simulation_shots * 100) 2)],
   skip (2 * Z.to_nat simulation_shots) g).
Proof.
  intros Hn. unfold Sim.simulate_shots, truediv.
  rewrite run_loop_hits, run_loop_gen, run_loop_state.
  destruct (Z.eqb_spec simulation_shots 0); [contradiction|reflexivity].
Qed.

Lemma hit_ratio_bounds :
  (1 <= simulation_shots)%Z ->
  0 <= IZR (hit_count simulation_shots distance target_size moa g)
       / IZR simulation_shots <= 1.
Proof.
  intros Hn. pose proof hit_count_bounds as [H0 H1].
  rewrite Z.max_r in H1 by lia.
  apply IZR_le in H0, H1. assert (0 < IZR simulation_shots) by (apply IZR_lt; lia).
  split.
  - apply Rmult_le_pos; [exact H0|]. left. now apply Rinv_0_lt_compat.
  - apply Rmult_le_reg_r with (IZR simulation_shots); [assumption|].
    unfold Rdiv. rewrite Rmult_assoc, Rinv_l by lra. lra.
Qed.

Lemma hit_count_none :
  (forall p, In p (all_shots simulation_shots distance moa g) ->
             Sim.is_hit target_size p = false) ->
  hit_count simulation_shots distance target_size moa g = 0%Z.
Proof.
  intros H. unfold hit_count. now rewrite filter_none.
Qed.

Lemma hit_count_all :
  (0 <= simulation_shots)%Z ->
  (forall p, In p (all_shots simulation_shots distance moa g) ->
             Sim.is_hit target_size p = true) ->
  hit_count simulation_shots distance target_size moa g = simulation_shots.
Proof.
  intros Hn H. unfold hit_count. rewrite filter_all by exact H.
  unfold all_shots. rewrite shots_upto_length. lia.
Qed.

End Result.

(** ** The hit probability *)

Lemma round_percent (h n : Z) :
  (1 <= n)%Z -> (10000 mod n = 0)%Z ->
  Math.round (IZR h / IZR n * 100) 2 = IZR h / IZR n * 100.
Proof.
  intros Hn Hd. apply Z.mod_divide in Hd; [|lia]. destruct Hd as [m Hm].
  assert (Hn' : IZR n <> 0) by (apply not_0_IZR; lia).
  assert (HR : IZR m * IZR n = 10000) by (rewrite <- mult_IZR, <- Hm; reflexivity).
  assert (E : IZR h / IZR n * 100 = IZR (h * m) / 100).
  { rewrite mult_IZR. field_simplify_eq; [|exact Hn']. rewrite <- HR. ring. }
  rewrite E. apply round_two_decimals.
Qed.

(** C1.  For a run of [n >= 1] shots the hit probability is the number of
    shots classified as hits divided by [n]; the number in the figure's title
    is that ratio as a percentage rounded to two decimals (and the rounding
    changes nothing when [n] divides 10000, as the module's 10000 does); the
    ratio is 0 when no shot is a hit, 1 when every shot is a hit, and always
    lies between 0 and 1. *)
Theorem hit_probability_is_hit_ratio :
  forall (n cap : Z) (distance target_size moa : R) (g : rng),
    (1 <= n)%Z ->
    let h := hit_count n distance target_size moa g in
    let p := IZR h / IZR n in
    Sim.hit_probability n cap distance target_size moa g = Returns p
    /\ (exists fig,
           fst (Sim.simulate_shots n cap distance target_size moa g) = Returns [fig]
           /\ title_percent fig = Math.round (p * 100) 2
           /\ ((10000 mod n = 0)%Z -> title_percent fig = p * 100))
    /\ ((forall q, In q (all_shots n distance moa g) ->
                   Sim.is_hit target_size q = false) -> p = 0)
    /\ ((forall q, In q (all_shots n distance moa g) ->
                   Sim.is_hit target_size q = true) -> p = 1)
    /\ 0 <= p <= 1.
Proof.
  intros n cap distance target_size moa g Hn h p.
  assert (Hn0 : (n <> 0)%Z) by lia.
  assert (HnR : IZR n <> 0) by (apply not_0_IZR; lia).
  split; [|split; [|split; [|split]]].
  - now apply hit_probability_value.
  - rewrite simulate_shots_value by exact Hn0. eexists. split; [reflexivity|].
    split; [reflexivity|]. intros Hd. cbn [title_percent Sim.build_figure].
    now apply round_percent.
  - intros Hnone. subst p h. rewrite hit_count_none by exact Hnone.
    unfold Rdiv. apply Rmult_0_l.
  - intros Hall. subst p h. rewrite hit_count_all by (exact Hall || lia).
    now apply Rinv_r.
  - now apply hit_ratio_bounds.
Qed.

(** The theorem at the module's own constants, on a generator that always
    returns one half. *)
Lemma hit_probability_is_hit_ratio_witness :
  (1 <= simulation_shots)%Z /\
  Sim.hit_probability simulation_shots shots 1000 (3 / 10) 4 (Gen.constant (1 / 2)) =
  Returns (IZR (hit_count simulation_shots 1000 (3 / 10) 4 (Gen.constant (1 / 2)))
           / IZR simulation_shots).
Proof.
  assert (H : (1 <= simulation_shots)%Z) by (unfold simulation_shots; lia).
  split; [exact H|].
  exact (proj1 (hit_probability_is_hit_ratio simulation_shots shots 1000 (3 / 10) 4
                  (Gen.constant (1 / 2)) H)).
Defined.

(** ** Sampling one shot *)

Lemma max_radius_formula (distance moa : R) :
  max_radius distance moa = distance * sin (moa / 60 * (PI / 180) / 2).
Proof. reflexivity. Qed.

Lemma scaled_draw_interval (m u a b : R) :
  0 < m -> (a <= m * u <= b <-> a / m <= u <= b / m).
Proof.
  intros Hm. unfold Rdiv.
  assert (Hi : 0 < / m) by now apply Rinv_0_lt_compat.
  assert (E : forall t, t * / m * m = t) by (intros t; field; lra).
  split; intros [H1 H2]; split.
  - apply Rmult_le_reg_r with m; [exact Hm|]. rewrite E. lra.
  - apply Rmult_le_reg_r with m; [exact Hm|]. rewrite E. lra.
  - apply Rmult_le_compat_r with (r := m) in H1; [|lra]. rewrite E in H1. lra.
  - apply Rmult_le_compat_r with (r := m) in H2; [|lra]. rewrite E in H2. lra.
Qed.

(** C2.  One shot is sampled as follows: with
    [max_radius = distance * sin(radians(moa / 60) / 2)], the radius is
    [uniform(0, max_radius)], the image of the next draw [u] of [[0, 1)] under
    [u |-> max_radius * u], so it lies in [[0, max_radius]] and falls in a
    sub-interval exactly when [u] falls in an interval [1 / max_radius] times
    as long; the angle is [uniform(0, 2 pi)], the image of the draw after
    that under [v |-> 2 pi v], so it lies in [[0, 2 pi)]; and the landing point
    is [(radius cos angle, radius sin angle)].  Two draws are used. *)
Theorem sampling_algorithm :
  forall (distance moa : R) (g : rng),
    unit_range g ->
    let u := draws g (consumed g) in
    let v := draws g (S (consumed g)) in
    let max_radius := distance * sin (moa / 60 * (PI / 180) / 2) in
    let radius := max_radius * u in
    let angle := 2 * PI * v in
    fst (Sim.sample distance moa g) = (radius * cos angle, radius * sin angle)
    /\ snd (Sim.sample distance moa g) = skip 2 g
    /\ radius = fst (uniform 0 max_radius g)
    /\ angle = fst (uniform 0 (2 * PI) (skip 1 g))
    /\ (0 <= max_radius -> 0 <= radius <= max_radius)
    /\ (0 < max_radius ->
        forall a b, a <= radius <= b <-> a / max_radius <= u <= b / max_radius)
    /\ 0 <= angle < 2 * PI
    /\ (forall a b, a <= angle <= b <-> a / (2 * PI) <= v <= b / (2 * PI)).
Proof.
  intros distance moa g Hg u v max_radius radius angle.
  pose proof (Hg (consumed g)) as Hu. pose proof (Hg (S (consumed g))) as Hv.
  fold u in Hu. fold v in Hv. pose proof PI_RGT_0 as Hpi.
  repeat split.
  - now rewrite sample_value.
  - apply sample_gen.
  - rewrite uniform_value. subst radius u. ring.
  - rewrite uniform_value. cbn [skip draws consumed].
    replace (consumed g + 1)%nat with (S (consumed g)) by lia.
    subst angle v. ring.
  - subst radius. apply Rmult_le_pos; lra.
  - subst radius. rewrite <- (Rmult_1_r max_radius) at 2.
    apply Rmult_le_compat_l; lra.
  - apply (scaled_draw_interval max_radius u a b H); assumption.
  - apply (scaled_draw_interval max_radius u a b H); assumption.
  - apply (scaled_draw_interval max_radius u a b H); assumption.
  - apply (scaled_draw_interval max_radius u a b H); assumption.
  - subst angle. apply Rmult_le_pos; lra.
  - subst angle. rewrite <- (Rmult_1_r (2 * PI)) at 2.
    apply Rmult_lt_compat_l; lra.
  - apply (scaled_draw_interval (2 * PI) v a b); [lra|assumption].
  - apply (scaled_draw_interval (2 * PI) v a b); [lra|assumption].
  - apply (scaled_draw_interval (2 * PI) v a b); [lra|assumption].
  - apply (scaled_draw_interval (2 * PI) v a b); [lra|assumption].
Qed.

Lemma constant_unit_range (u : R) : 0 <= u < 1 -> unit_range (Gen.constant u).
Proof. intros H k. exact H. Qed.

(** The theorem for the reference scenario (1000 m, 4 MOA) on the generator
    that always returns one half. *)
Lemma sampling_algorithm_witness :
  unit_range (Gen.constant (1 / 2)) /\
  fst (Sim.sample 1000 4 (Gen.constant (1 / 2))) =
  (1000 * sin (4 / 60 * (PI / 180) / 2) * (1 / 2) * cos (2 * PI * (1 / 2)),
   1000 * sin (4 / 60 * (PI / 180) / 2) * (1 / 2) * sin (2 * PI * (1 / 2))).
Proof.
  assert (H : unit_range (Gen.constant (1 / 2))) by (apply constant_unit_range; lra).
  split; [exact H|].
  exact (proj1 (sampling_algorithm 1000 4 (Gen.constant (1 / 2)) H)).
Defined.

(** ** Classifying a shot *)

Lemma is_hit_iff (target_size x y : R) :
  Sim.is_hit target_size (x, y) = true <-> sqrt (x ^ 2 + y ^ 2) <= target_size / 2.
Proof.
  unfold Sim.is_hit, Math.pow_half, Sim.target_radius; cbn [fst snd].
  apply leb_true.
Qed.

Lemma is_hit_false_iff (target_size x y : R) :
  Sim.is_hit target_size (x, y) = false <-> target_size / 2 < sqrt (x ^ 2 + y ^ 2).
Proof.
  unfold Sim.is_hit, Math.pow_half, Sim.target_radius; cbn [fst snd].
  apply leb_false.
Qed.

(** C3.  A shot [(x, y)] is classified as a hit exactly when
    [sqrt(x^2 + y^2) <= target_size / 2]; a shot at distance exactly
    [target_size / 2] from the centre is a hit; and the counter [hits] at the
    end of the loop is the number of shots of the run that satisfy this
    test. *)
Theorem hit_classification :
  forall (n cap : Z) (distance target_size moa : R) (g : rng),
    (forall x y,
        Sim.is_hit target_size (x, y) = true <->
        sqrt (x ^ 2 + y ^ 2) <= target_size / 2)
    /\ (forall x y,
           sqrt (x ^ 2 + y ^ 2) = target_size / 2 ->
           Sim.is_hit target_size (x, y) = true)
    /\ Sim.hits (Sim.run_loop n cap distance target_size moa g) =
       Z.of_nat
         (length
            (filter
               (fun q => Math.leb (sqrt (fst q ^ 2 + snd q ^ 2)) (target_size / 2))
               (all_shots n distance moa g))).
Proof.
  intros n cap distance target_size moa g. split; [|split].
  - intros x y. apply is_hit_iff.
  - intros x y H. apply is_hit_iff. rewrite H. apply Rle_refl.
  - rewrite run_loop_hits. reflexivity.
Qed.

(** ** The displayed points *)

Lemma combine_fst_snd {A B : Type} (l : list (A * B)) :
  combine (map fst l) (map snd l) = l.
Proof.
  induction l as [|[a b] l IH]; cbn; [reflexivity|]. now rewrite IH.
Qed.

Lemma In_firstn {A : Type} (c : nat) (l : list A) (a : A) :
  In a (firstn c l) -> In a l.
Proof.
  intros H. rewrite <- (firstn_skipn c l). apply in_or_app. now left.
Qed.

Lemma firstn_seq_min (c s k : nat) : firstn c (seq s k) = seq s (Nat.min c k).
Proof.
  revert s k. induction c as [|c IH]; intros s [|k]; cbn; try reflexivity.
  now rewrite IH.
Qed.

Lemma firstn_seq_map {A : Type} (f : nat -> A) (c k : nat) :
  firstn c (map f (seq 0 k)) = map f (seq 0 (Nat.min c k)).
Proof.
  rewrite firstn_map, firstn_seq_min. reflexivity.
Qed.

(** C4.  A run of [n >= 1] shots with display cap [cap >= 0] returns one
    figure.  Its "Hits" trace holds, in loop order, the landing points among
    the first [cap] shots of the run that were classified as hits, and its
    "Misses" trace those that were not; the first [cap] shots of the run are
    the shots with loop index below [min n cap]; together the two traces hold
    [min n cap] points. *)
Theorem displayed_points :
  forall (n cap : Z) (distance target_size moa : R) (g : rng),
    (1 <= n)%Z -> (0 <= cap)%Z ->
    let first_shots := firstn (Z.to_nat cap) (all_shots n distance moa g) in
    exists fig,
      fst (Sim.simulate_shots n cap distance target_size moa g) = Returns [fig]
      /\ displayed_hits fig = filter (Sim.is_hit target_size) first_shots
      /\ displayed_misses fig = filter (is_miss target_size) first_shots
      /\ (exists hx hy mx my,
             data fig =
             [ {| scatter_x := hx; scatter_y := hy;
                  marker_color := green; name := Hits |};
               {| scatter_x := mx; scatter_y := my;
                  marker_color := red; name := Misses |} ]
             /\ length hx = length hy /\ length mx = length my)
      /\ first_shots =
         map (shot distance moa g) (seq 0 (Z.to_nat (Z.min n cap)))
      /\ Z.of_nat (length (displayed_hits fig) + length (displayed_misses fig)) =
         Z.min n cap.
Proof.
  intros n cap distance target_size moa g Hn Hcap first_shots.
  rewrite simulate_shots_value by lia. eexists. split; [reflexivity|].
  unfold displayed_hits, displayed_misses, Sim.build_figure, state_after;
    cbn [data scatter_x scatter_y Sim.hits_x Sim.hits_y Sim.misses_x Sim.misses_y].
  rewrite !combine_fst_snd. fold (all_shots n distance moa g). fold first_shots.
  assert (E : first_shots =
              map (shot distance moa g) (seq 0 (Z.to_nat (Z.min n cap)))).
  { unfold first_shots, all_shots, shots_upto. rewrite firstn_seq_map.
    do 2 f_equal. lia. }
  split; [reflexivity|]. split; [reflexivity|]. split; [|split].
  - do 4 eexists. split; [reflexivity|]. now rewrite !length_map.
  - exact E.
  - unfold is_miss.
    rewrite (filter_partition_length (Sim.is_hit target_size) first_shots).
    rewrite E, length_map, length_seq. lia.
Qed.

(** The theorem at the module's constants: 10000 shots, the first 100 shown. *)
Lemma displayed_points_witness :
  exists fig,
    fst (simulate_shots 1000 (3 / 10) 4 (Gen.constant (1 / 2))) = Returns [fig]
    /\ Z.of_nat (length (displayed_hits fig) + length (displayed_misses fig)) = 100%Z.
Proof.
  assert (Hn : (1 <= simulation_shots)%Z) by (unfold simulation_shots; lia).
  assert (Hc : (0 <= shots)%Z) by (unfold shots; lia).
  destruct (displayed_points simulation_shots shots 1000 (3 / 10) 4
              (Gen.constant (1 / 2)) Hn Hc) as (fig & Hf & _ & _ & _ & _ & Hlen).
  exists fig. split; [exact Hf|]. exact Hlen.
Defined.

(** ** The distance of a shot from the centre *)

Lemma polar_distance (r a : R) :
  sqrt ((r * cos a) ^ 2 + (r * sin a) ^ 2) = Rabs r.
Proof.
  replace ((r * cos a) ^ 2 + (r * sin a) ^ 2) with (Rsqr r).
  - apply sqrt_Rsqr_abs.
  - pose proof (sin2_cos2 a) as H. unfold Rsqr in *.
    transitivity (r * r * (sin a * sin a + cos a * cos a)); [rewrite H|]; ring.
Qed.

Lemma polar_is_hit (target_size r a : R) :
  Sim.is_hit target_size (r * cos a, r * sin a) = true <-> Rabs r <= target_size / 2.
Proof.
  rewrite is_hit_iff, polar_distance. reflexivity.
Qed.

Lemma shot_radius_value (distance moa : R) (g : rng) (i : nat) :
  shot_radius distance moa g i = max_radius distance moa * radius_draw g i.
Proof.
  unfold shot_radius. rewrite uniform_value. unfold radius_draw; cbn. ring.
Qed.

Lemma shot_value (distance moa : R) (g : rng) (i : nat) :
  shot distance moa g i =
  (shot_radius distance moa g i * cos (2 * PI * angle_draw g i),
   shot_radius distance moa g i * sin (2 * PI * angle_draw g i)).
Proof.
  unfold shot. rewrite sample_value, shot_radius_value.
  unfold max_radius, radius_draw, angle_draw; cbn. reflexivity.
Qed.

Lemma shot_is_hit (distance target_size moa : R) (g : rng) (i : nat) :
  Sim.is_hit target_size (shot distance moa g i) = true <->
  Rabs (shot_radius distance moa g i) <= target_size / 2.
Proof.
  rewrite shot_value. apply polar_is_hit.
Qed.

(** ** Comparing the hit counts of two runs *)

Section Comparing.

Context {A B : Type} (f : A -> bool) (f' : B -> bool).
Context (s : nat -> A) (s' : nat -> B).

Lemma count_map_le (l : list nat) :
  (forall i, In i l -> f (s i) = true -> f' (s' i) = true) ->
  (length (filter f (map s l)) <= length (filter f' (map s' l)))%nat.
Proof.
  induction l as [|i l IH]; intros H; cbn; [lia|].
  assert (IH' := IH (fun j Hj => H j (or_intror Hj))).
  pose proof (H i (or_introl eq_refl)) as Hi.
  destruct (f (s i)); [rewrite (Hi eq_refl)|destruct (f' (s' i))]; cbn; lia.
Qed.

End Comparing.

Lemma count_map_ext {A B : Type} (f : A -> bool) (f' : B -> bool)
      (s : nat -> A) (s' : nat -> B) (l : list nat) :
  (forall i, In i l -> f (s i) = f' (s' i)) ->
  length (filter f (map s l)) = length (filter f' (map s' l)).
Proof.
  intros H. apply Nat.le_antisymm; apply count_map_le; intros i Hi Ht.
  - now rewrite <- H.
  - now rewrite H.
Qed.

Lemma hit_probability_le (n cap : Z) (d t m d' t' m' : R) (g g' : rng) :
  (1 <= n)%Z ->
  (forall i, (i < Z.to_nat n)%nat ->
             Sim.is_hit t (shot d m g i) = true ->
             Sim.is_hit t' (shot d' m' g' i) = true) ->
  exists p p',
    Sim.hit_probability n cap d t m g = Returns p
    /\ Sim.hit_probability n cap d' t' m' g' = Returns p'
    /\ p <= p'.
Proof.
  intros Hn H. rewrite !hit_probability_value by lia.
  do 2 eexists. split; [reflexivity|]. split; [reflexivity|].
  assert (Hc : (hit_count n d t m g <= hit_count n d' t' m' g')%Z).
  { unfold hit_count, all_shots, shots_upto. apply inj_le, count_map_le.
    intros i Hi. apply H. apply in_seq in Hi. lia. }
  apply IZR_le in Hc. assert (0 < IZR n) by (apply IZR_lt; lia).
  unfold Rdiv. apply Rmult_le_compat_r; [|exact Hc].
  left. now apply Rinv_0_lt_compat.
Qed.

Lemma hit_probability_ext (n cap : Z) (d t m d' t' m' : R) (g g' : rng) :
  (forall i, (i < Z.to_nat n)%nat ->
             Sim.is_hit t (shot d m g i) = Sim.is_hit t' (shot d' m' g' i)) ->
  Sim.hits (Sim.run_loop n cap d t m g) = Sim.hits (Sim.run_loop n cap d' t' m' g')
  /\ Sim.hit_probability n cap d t m g = Sim.hit_probability n cap d' t' m' g'.
Proof.
  intros H.
  assert (Hc : hit_count n d t m g = hit_count n d' t' m' g').
  { unfold hit_count, all_shots, shots_upto. f_equal. apply count_map_ext.
    intros i Hi. apply H. apply in_seq in Hi. lia. }
  unfold Sim.hit_probability. rewrite !run_loop_hits, Hc. split; reflexivity.
Qed.

(** ** The angle does not matter *)

Lemma even_double (i : nat) : Nat.even (2 * i) = true.
Proof.
  rewrite Nat.even_mul. reflexivity.
Qed.

Lemma alternating_radius_draw (u v : R) (i : nat) :
  radius_draw (Gen.alternating u v) i = u.
Proof.
  unfold radius_draw; cbn [Gen.alternating draws consumed Nat.add].
  now rewrite even_double.
Qed.

Lemma constant_radius_draw (u : R) (i : nat) : radius_draw (Gen.constant u) i = u.
Proof. reflexivity. Qed.

(** C10.  Whether a shot is a hit depends on its radius only: the point at
    radius [r] and angle [a] is a hit exactly when [|r| <= target_size / 2],
    whatever [a] is, which for a non-negative radius reads
    [r <= target_size / 2].  Hence two runs whose generators agree on the
    radius draws count the same number of hits and report the same hit
    probability, however their angle draws differ. *)
Theorem hit_depends_on_radius_only :
  forall (n cap : Z) (distance target_size moa : R) (g g' : rng),
    (forall i, (i < Z.to_nat n)%nat -> radius_draw g i = radius_draw g' i) ->
    (forall r a,
        Sim.is_hit target_size (r * cos a, r * sin a) = true <->
        Rabs r <= target_size / 2)
    /\ (forall r a,
           0 <= r ->
           (Sim.is_hit target_size (r * cos a, r * sin a) = true <->
            r <= target_size / 2))
    /\ (forall i,
           0 <= shot_radius distance moa g i ->
           (Sim.is_hit target_size (shot distance moa g i) = true <->
            shot_radius distance moa g i <= target_size / 2))
    /\ Sim.hits (Sim.run_loop n cap distance target_size moa g) =
       Sim.hits (Sim.run_loop n cap distance target_size moa g')
    /\ Sim.hit_probability n cap distance target_size moa g =
       Sim.hit_probability n cap distance target_size moa g'.
Proof.
  intros n cap distance target_size moa g g' Hr.
  split; [|split; [|split]].
  - intros r a. apply polar_is_hit.
  - intros r a H0. rewrite polar_is_hit, Rabs_pos_eq by exact H0. reflexivity.
  - intros i H0. rewrite shot_is_hit, Rabs_pos_eq by exact H0. reflexivity.
  - apply hit_probability_ext. intros i Hi.
    apply eq_true_iff_eq. rewrite !shot_is_hit, !shot_radius_value, (Hr i Hi).
    reflexivity.
Qed.

(** Two generators with the same radius draws and different angle draws. *)
Lemma hit_depends_on_radius_only_witness :
  Sim.hit_probability simulation_shots shots 1000 (3 / 10) 4 (Gen.constant (1 / 2)) =
  Sim.hit_probability simulation_shots shots 1000 (3 / 10) 4
    (Gen.alternating (1 / 2) (1 / 4)).
Proof.
  refine (proj2 (proj2 (proj2 (proj2
    (hit_depends_on_radius_only simulation_shots shots 1000 (3 / 10) 4
       (Gen.constant (1 / 2)) (Gen.alternating (1 / 2) (1 / 4)) _))))).
  intros i _. rewrite alternating_radius_draw. reflexivity.
Defined.

(** ** Determinism *)

Lemma shot_ext (distance moa : R) (g g' : rng) (i : nat) :
  radius_draw g i = radius_draw g' i ->
  angle_draw g i = angle_draw g' i ->
  shot distance moa g i = shot distance moa g' i.
Proof.
  intros Hr Ha. now rewrite !shot_value, !shot_radius_value, Hr, Ha.
Qed.

Lemma shots_upto_ext (distance moa : R) (g g' : rng) (k : nat) :
  (forall i, (i < k)%nat -> shot distance moa g i = shot distance moa g' i) ->
  shots_upto distance moa g k = shots_upto distance moa g' k.
Proof.
  intros H. unfold shots_upto. apply map_ext_in. intros i Hi.
  apply H. apply in_seq in Hi. lia.
Qed.

(** C9.  Two runs with the same parameters, on generators that hand out the
    same values during the run, give the same result: the same exception or
    the same figure (so the same displayed hit and miss points, in the same
    order, and the same title), the same hit probability, and the same number
    of draws used. *)
Theorem same_draws_same_result :
  forall (n cap : Z) (distance target_size moa : R) (g g' : rng),
    (forall j, (j < 2 * Z.to_nat n)%nat ->
               draws g (consumed g + j) = draws g' (consumed g' + j)) ->
    fst (Sim.simulate_shots n cap distance target_size moa g) =
    fst (Sim.simulate_shots n cap distance target_size moa g')
    /\ Sim.hit_probability n cap distance target_size moa g =
       Sim.hit_probability n cap distance target_size moa g'
    /\ (consumed (snd (Sim.simulate_shots n cap distance target_size moa g))
        - consumed g =
        consumed (snd (Sim.simulate_shots n cap distance target_size moa g'))
        - consumed g')%nat.
Proof.
  intros n cap distance target_size moa g g' H.
  assert (Hs : shots_upto distance moa g (Z.to_nat n) =
               shots_upto distance moa g' (Z.to_nat n)).
  { apply shots_upto_ext. intros i Hi. apply shot_ext.
    - unfold radius_draw. apply H. lia.
    - unfold angle_draw. rewrite <- !Nat.add_succ_r. apply H. lia. }
  assert (Hh : hit_count n distance target_size moa g =
               hit_count n distance target_size moa g').
  { unfold hit_count, all_shots. now rewrite Hs. }
  unfold Sim.hit_probability, Sim.simulate_shots.
  rewrite !run_loop_hits, !run_loop_state, Hh.
  split; [|split].
  - destruct (truediv _ n); cbn [fst]; [|reflexivity].
    unfold Sim.build_figure, state_after;
      cbn [Sim.hits_x Sim.hits_y Sim.misses_x Sim.misses_y]. now rewrite Hs.
  - reflexivity.
  - destruct (truediv _ n); cbn [snd state_after Sim.gen skip consumed]; lia.
Qed.

(** Two generators that differ only in how many values they handed out before
    the run. *)
Lemma same_draws_same_result_witness :
  fst (simulate_shots 1000 (3 / 10) 4 (Gen.constant (1 / 2))) =
  fst (simulate_shots 1000 (3 / 10) 4 (skip 7 (Gen.constant (1 / 2)))).
Proof.
  refine (proj1 (same_draws_same_result simulation_shots shots 1000 (3 / 10) 4
                   (Gen.constant (1 / 2)) (skip 7 (Gen.constant (1 / 2))) _)).
  intros j _. reflexivity.
Defined.

(** ** Degenerate dispersion cones *)

Lemma max_radius_zero (distance moa : R) :
  moa = 0 \/ distance = 0 -> max_radius distance moa = 0.
Proof.
  unfold max_radius, Sim.moa_radian, Math.radians. intros [H|H]; subst.
  - replace (0 / 60 * (Math.pi / 180) / 2) with 0 by (unfold Rdiv; ring).
    rewrite sin_0. ring.
  - ring.
Qed.

(** C6.  With [moa = 0] or [distance = 0] the dispersion cone has radius 0;
    [uniform(0, 0)] returns 0 whatever the draw; every shot lands on the
    origin; the origin is a hit for every target diameter [>= 0] (for
    diameter 0 by the inclusive boundary); so a run of [n >= 1] shots reports
    hit probability 1 and displays no miss. *)
Theorem degenerate_cone :
  forall (n cap : Z) (distance target_size moa : R) (g : rng),
    (1 <= n)%Z ->
    moa = 0 \/ distance = 0 ->
    0 <= target_size ->
    max_radius distance moa = 0
    /\ (forall g0, fst (uniform 0 0 g0) = 0)
    /\ (forall i, shot_radius distance moa g i = 0)
    /\ (forall i, shot distance moa g i = (0, 0))
    /\ Sim.is_hit target_size (0, 0) = true
    /\ Sim.hit_probability n cap distance target_size moa g = Returns 1
    /\ (exists fig,
           fst (Sim.simulate_shots n cap distance target_size moa g) = Returns [fig]
           /\ displayed_misses fig = []
           /\ (forall q, In q (displayed_hits fig) -> q = (0, 0))).
Proof.
  intros n cap distance target_size moa g Hn Hdeg Ht.
  pose proof (max_radius_zero distance moa Hdeg) as Hm.
  assert (Hr : forall i, shot_radius distance moa g i = 0).
  { intros i. rewrite shot_radius_value, Hm. ring. }
  assert (Hs : forall i, shot distance moa g i = (0, 0)).
  { intros i. rewrite shot_value, Hr. f_equal; ring. }
  assert (H0 : Sim.is_hit target_size (0, 0) = true).
  { apply is_hit_iff. replace (0 ^ 2 + 0 ^ 2) with 0 by ring. rewrite sqrt_0. lra. }
  assert (Hall : forall q, In q (all_shots n distance moa g) -> q = (0, 0)).
  { intros q Hq. unfold all_shots, shots_upto in Hq. apply in_map_iff in Hq.
    destruct Hq as (i & <- & _). apply Hs. }
  split; [exact Hm|]. split; [|split; [exact Hr|split; [exact Hs|split; [exact H0|split]]]].
  - intros g0. rewrite uniform_value. ring.
  - rewrite hit_probability_value by lia. rewrite hit_count_all; try lia.
    + f_equal. apply Rinv_r. apply not_0_IZR. lia.
    + intros q Hq. now rewrite (Hall q Hq).
  - rewrite simulate_shots_value by lia. eexists. split; [reflexivity|].
    unfold displayed_hits, displayed_misses, Sim.build_figure, state_after;
      cbn [data scatter_x scatter_y Sim.hits_x Sim.hits_y Sim.misses_x Sim.misses_y].
    rewrite !combine_fst_snd. fold (all_shots n distance moa g). split.
    + apply filter_none. intros q Hq. apply In_firstn in Hq.
      unfold is_miss. now rewrite (Hall q Hq), H0.
    + intros q Hq. apply filter_In in Hq. destruct Hq as [Hq _].
      apply In_firstn in Hq. now apply Hall.
Qed.

(** A rifle without dispersion at 1000 m, target of 30 cm. *)
Lemma degenerate_cone_witness :
  Sim.hit_probability simulation_shots shots 1000 (3 / 10) 0 (Gen.constant (1 / 2)) =
  Returns 1.
Proof.
  assert (Hn : (1 <= simulation_shots)%Z) by (unfold simulation_shots; lia).
  assert (Hd : 0 = 0 \/ 1000 = 0) by (left; reflexivity).
  assert (Ht : 0 <= 3 / 10) by lra.
  exact (proj1 (proj2 (proj2 (proj2 (proj2 (proj2
    (degenerate_cone simulation_shots shots 1000 (3 / 10) 0 (Gen.constant (1 / 2))
       Hn Hd Ht))))))).
Defined.

(** ** No validation of the arguments *)

Lemma simulate_shots_returns (distance target_size moa : R) (g : rng) :
  exists fig,
    simulate_shots distance target_size moa g =
    (Returns [fig], skip (2 * Z.to_nat simulation_shots) g).
Proof.
  unfold simulate_shots. rewrite simulate_shots_value by discriminate.
  eexists. reflexivity.
Qed.

(** *** The overflow of a square *)

Lemma overflow_threshold_value :
  Float.overflow_threshold = IZR (2 ^ 1024 - 2 ^ 970).
Proof.
  unfold Float.overflow_threshold. rewrite minus_IZR, !pow_IZR. reflexivity.
Qed.

Lemma square_in_range (x : R) :
  Rabs x <= 10 ^ 150 -> x ^ 2 < Float.overflow_threshold.
Proof.
  intros H. rewrite <- pow2_abs.
  apply Rle_lt_trans with ((10 ^ 150) ^ 2).
  - apply pow_incr. split; [apply Rabs_pos|exact H].
  - rewrite overflow_threshold_value, !pow_IZR. apply IZR_lt.
    vm_compute. reflexivity.
Qed.

Lemma pow2_in_range (x : R) :
  Rabs x <= 10 ^ 150 -> Float.pow2 x = Returns (x ^ 2).
Proof.
  intros H. unfold Float.pow2. apply square_in_range in H.
  destruct (Rle_dec Float.overflow_threshold (x ^ 2)); [lra|reflexivity].
Qed.

Lemma pow2_out_of_range (x : R) :
  Float.overflow_threshold <= x ^ 2 -> Float.pow2 x = Raises OverflowError.
Proof.
  intros H. unfold Float.pow2.
  destruct (Rle_dec Float.overflow_threshold (x ^ 2)); [reflexivity|contradiction].
Qed.

Lemma squares_raises (p : R * R) (e : exception) :
  Checked.squares p = Raises e ->
  e = OverflowError
  /\ (Float.overflow_threshold <= fst p ^ 2 \/ Float.overflow_threshold <= snd p ^ 2).
Proof.
  unfold Checked.squares, Float.pow2.
  destruct (Rle_dec Float.overflow_threshold (fst p ^ 2)) as [Hx|Hx].
  - intros H. injection H as <-. split; [reflexivity|now left].
  - destruct (Rle_dec Float.overflow_threshold (snd p ^ 2)) as [Hy|Hy].
    + intros H. injection H as <-. split; [reflexivity|now right].
    + discriminate.
Qed.

Lemma shot_overflows_iff (distance moa : R) (g : rng) (i : nat) :
  shot_overflows distance moa g i = true <->
  Float.overflow_threshold <= fst (shot distance moa g i) ^ 2
  \/ Float.overflow_threshold <= snd (shot distance moa g i) ^ 2.
Proof.
  unfold shot_overflows.
  destruct (Checked.squares (shot distance moa g i)) as [q|e] eqn:E.
  - split; [discriminate|]. intros H. exfalso.
    unfold Checked.squares, Float.pow2 in E.
    destruct (Rle_dec _ (fst _ ^ 2)); [discriminate E|].
    destruct (Rle_dec _ (snd _ ^ 2)); [discriminate E|]. destruct H; contradiction.
  - split; [|reflexivity]. intros _. now apply squares_raises in E.
Qed.

Lemma shot_coordinates_bound (distance moa : R) (g : rng) (i : nat) :
  unit_range g ->
  Rabs (fst (shot distance moa g i)) <= Rabs distance
  /\ Rabs (snd (shot distance moa g i)) <= Rabs distance.
Proof.
  intros Hg. rewrite shot_value; cbn [fst snd]. rewrite shot_radius_value.
  pose proof (Hg (consumed g + 2 * i)%nat) as Hu. fold (radius_draw g i) in Hu.
  set (a := 2 * PI * angle_draw g i).
  assert (Hr : Rabs (max_radius distance moa * radius_draw g i) <= Rabs distance).
  { unfold max_radius. rewrite !Rabs_mult, (Rabs_pos_eq (radius_draw g i)) by lra.
    pose proof (Rabs_pos distance) as Hd.
    assert (Hs : Rabs (sin (Sim.moa_radian moa / 2)) <= 1)
      by (apply Rabs_le, SIN_bound).
    pose proof (Rabs_pos (sin (Sim.moa_radian moa / 2))) as Hs0.
    assert (Rabs distance * Rabs (sin (Sim.moa_radian moa / 2)) <= Rabs distance * 1)
      by (apply Rmult_le_compat_l; lra).
    assert (Rabs distance * Rabs (sin (Sim.moa_radian moa / 2)) * radius_draw g i
            <= Rabs distance * Rabs (sin (Sim.moa_radian moa / 2)) * 1).
    { apply Rmult_le_compat_l; [|lra]. apply Rmult_le_pos; lra. }
    lra. }
  pose proof (Rabs_pos (max_radius distance moa * radius_draw g i)) as Hr0.
  split; rewrite Rabs_mult.
  - assert (Hc : Rabs (cos a) <= 1) by (apply Rabs_le, COS_bound).
    pose proof (Rabs_pos (cos a)).
    apply Rle_trans with (Rabs (max_radius distance moa * radius_draw g i) * 1);
      [apply Rmult_le_compat_l; lra|lra].
  - assert (Hc : Rabs (sin a) <= 1) by (apply Rabs_le, SIN_bound).
    pose proof (Rabs_pos (sin a)).
    apply Rle_trans with (Rabs (max_radius distance moa * radius_draw g i) * 1);
      [apply Rmult_le_compat_l; lra|lra].
Qed.

(** With draws in [[0, 1)] and a distance of magnitude at most [10^150], no
    square overflows. *)
Lemma no_overflow_in_range (distance moa : R) (g : rng) :
  unit_range g -> Rabs distance <= 10 ^ 150 ->
  forall i, shot_overflows distance moa g i = false.
Proof.
  intros Hg Hd i. destruct (shot_coordinates_bound distance moa g i Hg) as [Hx Hy].
  unfold shot_overflows, Checked.squares.
  rewrite !pow2_in_range by (eapply Rle_trans; eassumption). reflexivity.
Qed.

Lemma first_overflow_none_in_range (distance moa : R) (g : rng) (k : nat) :
  unit_range g -> Rabs distance <= 10 ^ 150 ->
  first_overflow distance moa g k = None.
Proof.
  intros Hg Hd. unfold first_overflow.
  destruct (find _ _) as [i|] eqn:E; [|reflexivity].
  apply find_some in E. destruct E as [_ E].
  now rewrite no_overflow_in_range in E.
Qed.

(** *** The checked loop *)

Lemma run_from_seq (cap : Z) (distance target_size moa : R) (g : rng) (k j : nat) :
  Checked.run_from cap distance target_size moa (map Z.of_nat (seq j k))
    (state_after cap distance target_size moa g j) =
  match find (shot_overflows distance moa g) (seq j k) with
  | Some i => (Raises OverflowError, skip (2 * S i) g)
  | None =>
      (Returns (state_after cap distance target_size moa g (j + k)),
       skip (2 * (j + k)) g)
  end.
Proof.
  revert j. induction k as [|k IH]; intros j.
  - cbn [seq map find Checked.run_from]. rewrite Nat.add_0_r. reflexivity.
  - cbn [seq map find Checked.run_from].
    replace (Sim.gen (state_after cap distance target_size moa g j))
      with (skip (2 * j) g) by reflexivity.
    rewrite sample_at. unfold shot_overflows at 1.
    destruct (Checked.squares (shot distance moa g j)) as [q|e] eqn:E.
    + rewrite body_state_after, IH, Nat.add_succ_r. reflexivity.
    + apply squares_raises in E. destruct E as [-> _]. reflexivity.
Qed.

Lemma checked_run_loop (n cap : Z) (distance target_size moa : R) (g : rng) :
  Checked.run_loop n cap distance target_size moa g =
  match first_overflow distance moa g (Z.to_nat n) with
  | Some i => (Raises OverflowError, skip (2 * S i) g)
  | None =>
      (Returns (state_after cap distance target_size moa g (Z.to_nat n)),
       skip (2 * Z.to_nat n) g)
  end.
Proof.
  unfold Checked.run_loop, range, first_overflow.
  pose proof (run_from_seq cap distance target_size moa g (Z.to_nat n) 0) as H.
  replace (state_after cap distance target_size moa g 0) with (Sim.initial g) in H.
  - exact H.
  - unfold state_after, Sim.initial; cbn. rewrite firstn_nil; cbn.
    now rewrite skip_0.
Qed.

(** A run in which a square overflows ends with [OverflowError], in the
    first such iteration and after its two draws. *)
Lemma checked_overflow (n cap : Z) (distance target_size moa : R) (g : rng) (i : nat) :
  first_overflow distance moa g (Z.to_nat n) = Some i ->
  Checked.simulate_shots n cap distance target_size moa g =
  (Raises OverflowError, skip (2 * S i) g).
Proof.
  intros H. unfold Checked.simulate_shots. now rewrite checked_run_loop, H.
Qed.

(** A run in which no square overflows is the run in exact arithmetic. *)
Lemma checked_no_overflow (n cap : Z) (distance target_size moa : R) (g : rng) :
  first_overflow distance moa g (Z.to_nat n) = None ->
  Checked.simulate_shots n cap distance target_size moa g =
  Sim.simulate_shots n cap distance target_size moa g.
Proof.
  intros H. unfold Checked.simulate_shots, Sim.simulate_shots.
  rewrite checked_run_loop, H, run_loop_state.
  cbn [state_after Sim.hits Sim.gen]. reflexivity.
Qed.

Lemma find_seq_first (f : nat -> bool) (k s i : nat) :
  find f (seq s k) = Some i ->
  (s <= i < s + k)%nat
  /\ f i = true
  /\ forall j, (s <= j < i)%nat -> f j = false.
Proof.
  revert s. induction k as [|k IH]; intros s; cbn [seq find]; [discriminate|].
  destruct (f s) eqn:E.
  - intros H. injection H as <-. split; [lia|]. split; [exact E|]. intros j Hj. lia.
  - intros H. destruct (IH (S s) H) as (Hi & Ht & Hb). split; [lia|].
    split; [exact Ht|]. intros j Hj.
    destruct (Nat.eq_dec j s) as [->|Hne]; [exact E|apply Hb; lia].
Qed.

Lemma first_overflow_spec (distance moa : R) (g : rng) (k i : nat) :
  first_overflow distance moa g k = Some i ->
  (i < k)%nat
  /\ shot_overflows distance moa g i = true
  /\ forall j, (j < i)%nat -> shot_overflows distance moa g j = false.
Proof.
  intros H. apply find_seq_first in H. destruct H as (Hi & Ht & Hb).
  split; [lia|]. split; [exact Ht|]. intros j Hj. apply Hb. lia.
Qed.

Lemma checked_raises (n cap : Z) (distance target_size moa : R) (g : rng)
      (e : exception) :
  (n <> 0)%Z ->
  fst (Checked.simulate_shots n cap distance target_size moa g) = Raises e ->
  e = OverflowError
  /\ exists i,
       first_overflow distance moa g (Z.to_nat n) = Some i
       /\ snd (Checked.simulate_shots n cap distance target_size moa g) =
          skip (2 * S i) g.
Proof.
  intros Hn H.
  destruct (first_overflow distance moa g (Z.to_nat n)) as [i|] eqn:E.
  - rewrite (checked_overflow n cap distance target_size moa g i E) in H |- *.
    cbn [fst snd] in *. injection H as <-. split; [reflexivity|].
    exists i. split; reflexivity.
  - rewrite (checked_no_overflow n cap distance target_size moa g E) in H.
    rewrite simulate_shots_value in H by exact Hn. discriminate H.
Qed.

(** C5, as the program has it.  [simulate_shots] checks none of its
    arguments and has no failure for an invalid parameter.  When the
    generator's values lie in [[0, 1)] and the distance has magnitude at most
    [10^150], then for every target diameter and dispersion, and negative
    values of all three included, it runs the whole loop, taking two draws
    for each of the 10000 shots, and returns a figure (the one of the
    exact-arithmetic model).  Whatever the arguments, the only exception it
    raises is the [OverflowError] of a square [x**2] or [y**2] that leaves
    the float range, raised in the first iteration that samples such a point,
    after the two draws of that iteration. *)
Theorem no_parameter_validation :
  forall (distance target_size moa : R) (g : rng),
    (unit_range g -> Rabs distance <= 10 ^ 150 ->
     exists fig,
       Checked.simulate_shots simulation_shots shots distance target_size moa g =
       (Returns [fig], skip (2 * Z.to_nat simulation_shots) g)
       /\ simulate_shots distance target_size moa g =
          (Returns [fig], skip (2 * Z.to_nat simulation_shots) g)
       /\ Z.of_nat (consumed (skip (2 * Z.to_nat simulation_shots) g)) =
          (Z.of_nat (consumed g) + 20000)%Z)
    /\ (forall e,
           fst (Checked.simulate_shots simulation_shots shots
                  distance target_size moa g) = Raises e ->
           e = OverflowError
           /\ exists i,
                first_overflow distance moa g (Z.to_nat simulation_shots) = Some i
                /\ (Float.overflow_threshold <= fst (shot distance moa g i) ^ 2
                    \/ Float.overflow_threshold <= snd (shot distance moa g i) ^ 2)
                /\ snd (Checked.simulate_shots simulation_shots shots
                          distance target_size moa g) = skip (2 * S i) g).
Proof.
  intros distance target_size moa g. split.
  - intros Hg Hd.
    destruct (simulate_shots_returns distance target_size moa g) as [fig Hf].
    exists fig. split; [|split].
    + rewrite checked_no_overflow by now apply first_overflow_none_in_range.
      exact Hf.
    + exact Hf.
    + cbn [skip consumed]. unfold simulation_shots. lia.
  - intros e He.
    destruct (checked_raises simulation_shots shots distance target_size moa g e)
      as (-> & i & Hi & Hs); [discriminate|exact He|].
    split; [reflexivity|]. exists i. split; [exact Hi|]. split; [|exact Hs].
    apply first_overflow_spec in Hi. destruct Hi as (_ & Ht & _).
    now apply shot_overflows_iff.
Qed.

(** The theorem at a negative distance, target diameter and dispersion. *)
Lemma no_parameter_validation_witness :
  exists fig,
    Checked.simulate_shots simulation_shots shots (-1) (-3 / 10) (-4)
      (Gen.constant (1 / 2)) =
    (Returns [fig], skip (2 * Z.to_nat simulation_shots) (Gen.constant (1 / 2))).
Proof.
  assert (Hg : unit_range (Gen.constant (1 / 2))) by (apply constant_unit_range; lra).
  assert (Hd : Rabs (-1) <= 10 ^ 150).
  { assert (1 <= 10 ^ 150) by (apply pow_R1_Rle; lra).
    rewrite Rabs_left by lra. lra. }
  destruct (proj1 (no_parameter_validation (-1) (-3 / 10) (-4) (Gen.constant (1 / 2)))
              Hg Hd) as (fig & Hf & _).
  exists fig. exact Hf.
Defined.

(** A negative distance is not rejected: the run returns a figure after
    20000 draws. *)
Lemma negative_distance_is_simulated :
  -1 < 0
  /\ (exists fig,
         fst (simulate_shots (-1) (3 / 10) 4 (Gen.constant (1 / 2))) = Returns [fig])
  /\ (forall e,
         fst (simulate_shots (-1) (3 / 10) 4 (Gen.constant (1 / 2))) <> Raises e)
  /\ Z.of_nat (consumed (snd (simulate_shots (-1) (3 / 10) 4 (Gen.constant (1 / 2))))) =
     20000%Z.
Proof.
  destruct (simulate_shots_returns (-1) (3 / 10) 4 (Gen.constant (1 / 2))) as [fig Hf].
  rewrite Hf; cbn [fst snd]. split; [lra|split; [|split]].
  - now exists fig.
  - discriminate.
  - cbn [skip consumed Gen.constant]. unfold simulation_shots. lia.
Qed.

(** What the loop and the division do for other values of the global
    [simulation_shots]: with 0 the loop draws nothing and the division raises;
    with a negative value the loop draws nothing and the figure reports 0. *)
Lemma zero_simulation_shots (cap : Z) (distance target_size moa : R) (g : rng) :
  Sim.simulate_shots 0 cap distance target_size moa g = (Raises ZeroDivisionError, g).
Proof.
  unfold Sim.simulate_shots, Sim.run_loop; cbn. reflexivity.
Qed.

Lemma negative_simulation_shots (n cap : Z) (distance target_size moa : R) (g : rng) :
  (n < 0)%Z ->
  Sim.hit_probability n cap distance target_size moa g = Returns 0
  /\ snd (Sim.simulate_shots n cap distance target_size moa g) = g.
Proof.
  intros Hn. split.
  - rewrite hit_probability_value by lia. f_equal.
    unfold hit_count, all_shots. replace (Z.to_nat n) with 0%nat by lia.
    cbn. unfold Rdiv. apply Rmult_0_l.
  - rewrite simulate_shots_value by lia. cbn [snd].
    replace (Z.to_nat n) with 0%nat by lia. apply skip_0.
Qed.

(** ** Monotonicity *)

Lemma half_angle (moa : R) : Sim.moa_radian moa / 2 = moa * (PI / 21600).
Proof.
  unfold Sim.moa_radian, Math.radians, Math.pi. field.
Qed.

Lemma sin_half_angle_mono (m m' : R) :
  0 <= m <= m' -> m' <= 10800 ->
  0 <= sin (Sim.moa_radian m / 2) <= sin (Sim.moa_radian m' / 2).
Proof.
  intros [H0 Hm] H1. rewrite !half_angle. pose proof PI_RGT_0 as Hpi.
  assert (Hk : 0 < PI / 21600) by lra.
  assert (Ha : 0 <= m * (PI / 21600)) by (apply Rmult_le_pos; lra).
  assert (Hb : m * (PI / 21600) <= m' * (PI / 21600))
    by (apply Rmult_le_compat_r; lra).
  assert (Hc : m' * (PI / 21600) <= PI / 2).
  { replace (PI / 2) with (10800 * (PI / 21600)) by field.
    apply Rmult_le_compat_r; lra. }
  split.
  - apply sin_ge_0; lra.
  - apply sin_incr_1; lra.
Qed.

Lemma shot_radius_abs_mono (distance m m' : R) (g : rng) (i : nat) :
  0 <= m <= m' -> m' <= 10800 ->
  Rabs (shot_radius distance m g i) <= Rabs (shot_radius distance m' g i).
Proof.
  intros Hm H1. destruct (sin_half_angle_mono m m' Hm H1) as [Hs0 Hs].
  rewrite !shot_radius_value. unfold max_radius.
  rewrite !Rabs_mult. apply Rmult_le_compat_r; [apply Rabs_pos|].
  apply Rmult_le_compat_l; [apply Rabs_pos|].
  rewrite !Rabs_pos_eq; lra.
Qed.

(** C7, as the program has it.  On one and the same sequence of draws, for a
    run of [n >= 1] shots: with the distance and the target diameter fixed,
    raising the dispersion from [moa] to [moa'] within [0 <= moa <= moa' <=
    10800] (a cone half-angle of at most a quarter turn) does not raise the
    hit probability; with the distance and the dispersion fixed, raising the
    target diameter does not lower it. *)
Theorem hit_probability_monotone :
  forall (n cap : Z) (distance target_size target_size' moa moa' : R) (g : rng),
    (1 <= n)%Z ->
    (0 <= moa <= moa' -> moa' <= 10800 ->
     exists p p',
       Sim.hit_probability n cap distance target_size moa g = Returns p
       /\ Sim.hit_probability n cap distance target_size moa' g = Returns p'
       /\ p' <= p)
    /\ (target_size <= target_size' ->
        exists p p',
          Sim.hit_probability n cap distance target_size moa g = Returns p
          /\ Sim.hit_probability n cap distance target_size' moa g = Returns p'
          /\ p <= p').
Proof.
  intros n cap distance target_size target_size' moa moa' g Hn. split.
  - intros Hm H1.
    destruct (hit_probability_le n cap distance target_size moa'
                distance target_size moa g g Hn) as (p' & p & Hp' & Hp & Hle).
    + intros i _. rewrite !shot_is_hit. intros Hh.
      eapply Rle_trans; [|exact Hh]. now apply shot_radius_abs_mono.
    + now exists p, p'.
  - intros Ht.
    apply (hit_probability_le n cap distance target_size moa
             distance target_size' moa g g Hn).
    intros i _. rewrite !shot_is_hit. lra.
Qed.

(** The reference scenario, with the dispersion raised from 2 to 4 MOA. *)
Lemma hit_probability_monotone_witness :
  exists p p',
    Sim.hit_probability simulation_shots shots 1000 (3 / 10) 2 (Gen.constant (1 / 2)) =
    Returns p
    /\ Sim.hit_probability simulation_shots shots 1000 (3 / 10) 4
         (Gen.constant (1 / 2)) = Returns p'
    /\ p' <= p.
Proof.
  assert (Hn : (1 <= simulation_shots)%Z) by (unfold simulation_shots; lia).
  assert (Hm : 0 <= 2 <= 4) by lra.
  assert (H1 : 4 <= 10800) by lra.
  exact (proj1 (hit_probability_monotone simulation_shots shots 1000 (3 / 10) (3 / 10)
                  2 4 (Gen.constant (1 / 2)) Hn) Hm H1).
Defined.

Lemma max_radius_quarter_turn : max_radius 1 10800 = 1.
Proof.
  unfold max_radius. rewrite half_angle.
  replace (10800 * (PI / 21600)) with (PI / 2) by field.
  rewrite sin_PI2. ring.
Qed.

Lemma max_radius_half_turn : max_radius 1 21600 = 0.
Proof.
  unfold max_radius. rewrite half_angle.
  replace (21600 * (PI / 21600)) with PI by field.
  rewrite sin_PI. ring.
Qed.

Lemma shot_is_miss (distance target_size moa : R) (g : rng) (i : nat) :
  Sim.is_hit target_size (shot distance moa g i) = false <->
  target_size / 2 < Rabs (shot_radius distance moa g i).
Proof.
  rewrite shot_value, is_hit_false_iff, polar_distance. reflexivity.
Qed.

Lemma in_all_shots (n : Z) (distance moa : R) (g : rng) (q : R * R) :
  In q (all_shots n distance moa g) ->
  exists i, (i < Z.to_nat n)%nat /\ q = shot distance moa g i.
Proof.
  unfold all_shots, shots_upto. intros H. apply in_map_iff in H.
  destruct H as (i & <- & Hi). apply in_seq in Hi. exists i. split; [lia|reflexivity].
Qed.

(** Raising the dispersion from 10800 to 21600 MOA, on the same draws, raises
    the hit probability from 0 to 1: at distance 1 with a target of diameter
    1/2 and every draw equal to 1/2, the cone radius falls from
    [sin(pi / 2) = 1] to [sin(pi) = 0]. *)
Lemma wider_dispersion_can_raise_hit_probability :
  0 <= 10800 < 21600
  /\ Sim.hit_probability simulation_shots shots 1 (1 / 2) 10800 (Gen.constant (1 / 2)) =
     Returns 0
  /\ Sim.hit_probability simulation_shots shots 1 (1 / 2) 21600 (Gen.constant (1 / 2)) =
     Returns 1.
Proof.
  split; [lra|]. rewrite !hit_probability_value by discriminate. split; f_equal.
  - rewrite hit_count_none; [unfold Rdiv; apply Rmult_0_l|].
    intros q Hq. apply in_all_shots in Hq. destruct Hq as (i & _ & ->).
    apply shot_is_miss. rewrite shot_radius_value, max_radius_quarter_turn.
    rewrite constant_radius_draw, Rabs_pos_eq; lra.
  - rewrite hit_count_all.
    { apply Rinv_r, not_0_IZR. discriminate. }
    { discriminate. }
    intros q Hq. apply in_all_shots in Hq. destruct Hq as (i & _ & ->).
    apply shot_is_hit. rewrite shot_radius_value, max_radius_half_turn.
    rewrite Rmult_0_l, Rabs_R0. lra.
Qed.

(** ** The value the estimate approaches *)

Lemma INR_to_nat (n : Z) : (0 <= n)%Z -> INR (Z.to_nat n) = IZR n.
Proof.
  intros Hn. rewrite INR_IZR_INZ, Z2Nat.id by exact Hn. reflexivity.
Qed.

(** For a cone of positive radius, a shot is a hit exactly when its radius
    draw is at most [target_radius / max_radius]. *)
Lemma hit_iff_draw (distance target_size moa : R) (g : rng) (i : nat) :
  0 < max_radius distance moa -> unit_range g ->
  Sim.is_hit target_size (shot distance moa g i) =
  Math.leb (radius_draw g i) (target_size / 2 / max_radius distance moa).
Proof.
  intros HM Hg. apply eq_true_iff_eq.
  rewrite shot_is_hit, leb_true, shot_radius_value.
  pose proof (Hg (consumed g + 2 * i)%nat) as Hu. fold (radius_draw g i) in Hu.
  set (M := max_radius distance moa) in *. set (u := radius_draw g i) in *.
  rewrite Rabs_pos_eq by (apply Rmult_le_pos; lra).
  assert (E : target_size / 2 / M * M = target_size / 2) by (field; lra).
  split; intros H.
  - apply Rmult_le_reg_r with M; [exact HM|]. rewrite E. lra.
  - apply Rmult_le_compat_r with (r := M) in H; [|lra]. rewrite E in H. lra.
Qed.

Lemma hit_ratio_fraction (n : Z) (distance target_size moa : R) (g : rng) :
  (0 <= n)%Z -> 0 < max_radius distance moa -> unit_range g ->
  IZR (hit_count n distance target_size moa g) / IZR n =
  fraction_below (radius_draws g (Z.to_nat n))
                 (target_size / 2 / max_radius distance moa).
Proof.
  intros Hn HM Hg. unfold fraction_below, hit_count, all_shots, shots_upto, radius_draws.
  rewrite length_map, length_seq, INR_to_nat, <- INR_IZR_INZ by exact Hn.
  do 2 f_equal. apply count_map_ext. intros i _. now apply hit_iff_draw.
Qed.

Lemma Rabs_le_between (a b : R) : Rabs a <= b -> - b <= a <= b.
Proof.
  unfold Rabs. destruct (Rcase_abs a); lra.
Qed.

Lemma discrepancy_nonneg (us : list R) (delta : R) :
  discrepancy_le us delta -> 0 <= delta.
Proof.
  intros H. eapply Rle_trans; [apply Rabs_pos|]. apply (H 0). lra.
Qed.

Lemma fraction_below_all (us : list R) (c : R) :
  us <> [] -> (forall u, In u us -> u <= c) -> fraction_below us c = 1.
Proof.
  intros Hne H. unfold fraction_below. rewrite filter_all.
  - apply Rinv_r. apply not_0_INR. destruct us; [contradiction|discriminate].
  - intros u Hu. apply leb_true. now apply H.
Qed.

Lemma hit_ratio_near_radius_ratio
      (n : Z) (distance target_size moa : R) (g : rng) (delta : R) :
  (1 <= n)%Z -> 0 < max_radius distance moa -> 0 <= target_size ->
  unit_range g ->
  discrepancy_le (radius_draws g (Z.to_nat n)) delta ->
  Rabs (IZR (hit_count n distance target_size moa g) / IZR n
        - Rmin 1 (target_size / 2 / max_radius distance moa)) <= delta.
Proof.
  intros Hn HM Ht Hg Hd. rewrite hit_ratio_fraction by (lia || assumption).
  set (c := target_size / 2 / max_radius distance moa).
  assert (Hc : 0 <= c).
  { unfold c, Rdiv. apply Rmult_le_pos; [lra|]. left. now apply Rinv_0_lt_compat. }
  destruct (Rle_lt_dec c 1) as [Hle|Hgt].
  - rewrite Rmin_right by exact Hle. apply Hd. lra.
  - rewrite Rmin_left by lra. rewrite fraction_below_all.
    + rewrite Rminus_diag, Rabs_R0. now apply discrepancy_nonneg in Hd.
    + unfold radius_draws. destruct (Z.to_nat n) eqn:E; [lia|]. discriminate.
    + intros u Hu. unfold radius_draws in Hu. apply in_map_iff in Hu.
      destruct Hu as (i & <- & _). unfold radius_draw.
      pose proof (Hg (consumed g + 2 * i)%nat). lra.
Qed.

(** The bound for one given sequence of draws.  When the cone radius is
    positive and the target diameter is not negative, the hit probability of
    a run of [n >= 1] shots differs from [min(1, target_radius / max_radius)]
    by at most the discrepancy of the run's radius draws, that is, by at most
    the largest difference between the fraction of radius draws in an
    interval [[0, c]] and the length [c] of that interval. *)
Lemma hit_probability_near_radius_ratio :
  forall (n cap : Z) (distance target_size moa : R) (g : rng) (delta : R),
    (1 <= n)%Z ->
    0 < max_radius distance moa ->
    0 <= target_size ->
    unit_range g ->
    discrepancy_le (radius_draws g (Z.to_nat n)) delta ->
    exists p,
      Sim.hit_probability n cap distance target_size moa g = Returns p
      /\ Rabs (p - Rmin 1 (target_size / 2 / max_radius distance moa)) <= delta.
Proof.
  intros n cap distance target_size moa g delta Hn HM Ht Hg Hd.
  rewrite hit_probability_value by lia. eexists. split; [reflexivity|].
  now apply hit_ratio_near_radius_ratio.
Qed.

(** ** Evenly spread radius draws *)

Lemma stratified_unit_range (n : nat) : (0 < n)%nat -> unit_range (Gen.stratified n).
Proof.
  intros Hn k. cbn [Gen.stratified draws].
  assert (Hlt : (Nat.div2 k mod n < n)%nat) by (apply Nat.mod_upper_bound; lia).
  assert (H0 : 0 < INR n) by (apply lt_0_INR; lia).
  apply lt_INR in Hlt. pose proof (pos_INR (Nat.div2 k mod n)) as Hp.
  assert (E : forall t, t / INR n * INR n = t) by (intros t; field; lra).
  split.
  - apply Rmult_le_pos; [exact Hp|]. left. now apply Rinv_0_lt_compat.
  - apply Rmult_lt_reg_r with (INR n); [exact H0|]. rewrite E. lra.
Qed.

Lemma stratified_radius_draws (n : nat) :
  radius_draws (Gen.stratified n) n = map (fun i => INR i / INR n) (seq 0 n).
Proof.
  unfold radius_draws. apply map_ext_in. intros i Hi. apply in_seq in Hi.
  unfold radius_draw; cbn [Gen.stratified draws consumed Nat.add].
  rewrite Nat.div2_double, Nat.mod_small by lia. reflexivity.
Qed.

(** Among the grid points [0/n, 1/n, ..., (m-1)/n], either all are at most [c],
    or the number of those that are lies in [(c n, c n + 1]]. *)
Lemma grid_count (n : nat) (c : R) (m : nat) :
  (0 < n)%nat -> 0 <= c ->
  let k := length (filter (fun u => Math.leb u c)
                          (map (fun i => INR i / INR n) (seq 0 m))) in
  (k = m /\ (m = 0%nat \/ INR m - 1 <= c * INR n))
  \/ c * INR n < INR k <= c * INR n + 1.
Proof.
  intros Hn Hc. assert (H0 : 0 < INR n) by (apply lt_0_INR; lia).
  assert (E : forall t, t / INR n * INR n = t) by (intros t; field; lra).
  induction m as [|m IH]; cbn zeta in *.
  - left. split; [reflexivity|now left].
  - rewrite seq_S, map_app, filter_app, length_app; cbn [Nat.add map filter].
    set (k := length (filter (fun u => Math.leb u c)
                             (map (fun i => INR i / INR n) (seq 0 m)))) in *.
    assert (Hk : (k <= m)%nat).
    { unfold k. eapply Nat.le_trans; [apply filter_length_bound|].
      now rewrite length_map, length_seq. }
    apply le_INR in Hk.
    destruct (Math.leb (INR m / INR n) c) eqn:Hb; cbn [length].
    + apply leb_true in Hb.
      apply Rmult_le_compat_r with (r := INR n) in Hb; [|lra]. rewrite E in Hb.
      left. split.
      * destruct IH as [[Hkm _]|[Hlo _]]; [lia|lra].
      * right. rewrite S_INR. lra.
    + apply leb_false in Hb.
      apply Rmult_lt_compat_r with (r := INR n) in Hb; [|lra]. rewrite E in Hb.
      rewrite Nat.add_0_r. right.
      destruct IH as [[Hkm [Hm|Hm]]|IH]; [| |exact IH].
      * rewrite Hm in Hb. cbn [INR] in Hb. exfalso.
        assert (0 <= c * INR n) by (apply Rmult_le_pos; lra). lra.
      * apply (f_equal INR) in Hkm. lra.
Qed.

Lemma stratified_discrepancy (n : nat) :
  (0 < n)%nat ->
  discrepancy_le (radius_draws (Gen.stratified n) n) (1 / INR n).
Proof.
  intros Hn c [Hc0 Hc1]. rewrite stratified_radius_draws.
  unfold fraction_below. rewrite length_map, length_seq.
  pose proof (grid_count n c n Hn Hc0) as H; cbn zeta in H.
  set (k := length _) in *.
  assert (H0 : 0 < INR n) by (apply lt_0_INR; lia).
  assert (Hi : 0 < / INR n) by now apply Rinv_0_lt_compat.
  assert (E : INR k / INR n - c = (INR k - c * INR n) * / INR n) by (field; lra).
  assert (B : 0 <= INR k - c * INR n <= 1).
  { destruct H as [[Hk [Hm|Hm]]|H]; [lia| |lra].
    apply (f_equal INR) in Hk.
    assert (c * INR n <= 1 * INR n) by (apply Rmult_le_compat_r; lra). lra. }
  rewrite E, Rabs_pos_eq by (apply Rmult_le_pos; lra).
  unfold Rdiv. apply Rmult_le_compat_r; lra.
Qed.

(** With the cone radius 1 and the target radius 1/2, on 10000 evenly spread
    radius draws (discrepancy at most 1/10000), the hit probability is within
    1/10000 of the ratio 1/2 and so at least 2499/10000 away from the squared
    ratio [min(1, (1/2)^2) = 1/4]: more than [24 / sqrt 10000], far outside a
    tolerance of the order of [1 / sqrt 10000]. *)
Lemma hit_probability_far_from_squared_ratio :
  let n := Z.to_nat simulation_shots in
  let g := Gen.stratified n in
  let delta := 1 / INR n in
  0 < max_radius 1 10800
  /\ unit_range g
  /\ discrepancy_le (radius_draws g n) delta
  /\ exists p,
       Sim.hit_probability simulation_shots shots 1 1 10800 g = Returns p
       /\ delta < Rabs (p - Rmin 1 ((1 / 2 / max_radius 1 10800) ^ 2))
       /\ Rmin 1 ((1 / 2 / max_radius 1 10800) ^ 2) = 1 / 4
       /\ Rabs (p - 1 / 2) <= 1 / 10000
       /\ 2499 / 10000 <= Rabs (p - Rmin 1 ((1 / 2 / max_radius 1 10800) ^ 2))
       /\ 24 / sqrt (IZR simulation_shots)
          < Rabs (p - Rmin 1 ((1 / 2 / max_radius 1 10800) ^ 2)).
Proof.
  intros n g delta.
  assert (Hn : (0 < n)%nat) by (unfold n, simulation_shots; lia).
  assert (Hg : unit_range g) by now apply stratified_unit_range.
  assert (Hd : discrepancy_le (radius_draws g n) delta)
    by now apply stratified_discrepancy.
  assert (HM : 0 < max_radius 1 10800) by (rewrite max_radius_quarter_turn; lra).
  split; [exact HM|]. split; [exact Hg|]. split; [exact Hd|].
  rewrite hit_probability_value by discriminate. eexists. split; [reflexivity|].
  assert (H1 : (1 <= simulation_shots)%Z) by (unfold simulation_shots; lia).
  pose proof (hit_ratio_near_radius_ratio simulation_shots 1 1 10800 g delta
                H1 HM Rle_0_1 Hg Hd) as Hnear.
  set (p := IZR (hit_count simulation_shots 1 1 10800 g) / IZR simulation_shots) in *.
  rewrite max_radius_quarter_turn in *.
  assert (Hdelta : delta = 1 / 10000).
  { unfold delta, n. rewrite INR_to_nat by (unfold simulation_shots; lia).
    reflexivity. }
  assert (Hsq : Rmin 1 ((1 / 2 / 1) ^ 2) = 1 / 4).
  { rewrite Rmin_right by lra. field. }
  assert (Hroot : sqrt (IZR simulation_shots) = 100).
  { replace (IZR simulation_shots) with (100 * 100) by (unfold simulation_shots; lra).
    apply sqrt_square. lra. }
  rewrite Rmin_right in Hnear by lra.
  replace (1 / 2 / 1) with (1 / 2) in Hnear by field.
  rewrite Hsq, Hroot, Hdelta in *. pose proof Hnear as Hb.
  apply Rabs_le_between in Hb.
  assert (Hp : Rabs (p - 1 / 4) = p - 1 / 4) by (apply Rabs_pos_eq; lra).
  rewrite Hp. repeat split; lra.
Qed.

(** The bound on 10000 evenly spread radius draws. *)
Lemma hit_probability_near_radius_ratio_witness :
  exists p,
    Sim.hit_probability simulation_shots shots 1 1 10800
      (Gen.stratified (Z.to_nat simulation_shots)) = Returns p
    /\ Rabs (p - Rmin 1 (1 / 2 / max_radius 1 10800))
       <= 1 / INR (Z.to_nat simulation_shots).
Proof.
  assert (Hn : (0 < Z.to_nat simulation_shots)%nat) by (unfold simulation_shots; lia).
  assert (H1 : (1 <= simulation_shots)%Z) by (unfold simulation_shots; lia).
  assert (HM : 0 < max_radius 1 10800) by (rewrite max_radius_quarter_turn; lra).
  exact (hit_probability_near_radius_ratio simulation_shots shots 1 1 10800
           (Gen.stratified (Z.to_nat simulation_shots)) _ H1 HM Rle_0_1
           (stratified_unit_range _ Hn) (stratified_discrepancy _ Hn)).
Defined.

(** ** The estimate over all sequences of radius draws *)

Import Experiment.

Section Sums.

Context {A : Type}.

Lemma Rsum_nil (f : A -> R) : Rsum f [] = 0.
Proof. reflexivity. Qed.

Lemma Rsum_cons (f : A -> R) (a : A) (l : list A) : Rsum f (a :: l) = f a + Rsum f l.
Proof. reflexivity. Qed.

Lemma Rsum_ext (f g : A -> R) (l : list A) :
  (forall a, In a l -> f a = g a) -> Rsum f l = Rsum g l.
Proof.
  induction l as [|a l IH]; intros H; [reflexivity|].
  rewrite !Rsum_cons, (H a (or_introl eq_refl)), IH; [reflexivity|].
  intros b Hb. apply H. now right.
Qed.

Lemma Rsum_plus (f g : A -> R) (l : list A) :
  Rsum (fun a => f a + g a) l = Rsum f l + Rsum g l.
Proof.
  induction l as [|a l IH]; [rewrite !Rsum_nil; ring|].
  rewrite !Rsum_cons, IH. ring.
Qed.

Lemma Rsum_scal (c : R) (f : A -> R) (l : list A) :
  Rsum (fun a => c * f a) l = c * Rsum f l.
Proof.
  induction l as [|a l IH]; [rewrite !Rsum_nil; ring|].
  rewrite !Rsum_cons, IH. ring.
Qed.

Lemma Rsum_const (c : R) (l : list A) : Rsum (fun _ => c) l = c * INR (length l).
Proof.
  induction l as [|a l IH]; [rewrite Rsum_nil; cbn; ring|].
  rewrite Rsum_cons, IH. cbn [length]. rewrite S_INR. ring.
Qed.

Lemma Rsum_app (f : A -> R) (l1 l2 : list A) :
  Rsum f (l1 ++ l2) = Rsum f l1 + Rsum f l2.
Proof.
  induction l1 as [|a l IH]; [rewrite Rsum_nil; cbn [app]; ring|].
  cbn [app]. rewrite !Rsum_cons, IH. ring.
Qed.

(** Markov's inequality for a finite sum. *)
Lemma Rsum_markov (f : A -> R) (P : A -> bool) (c : R) (l : list A) :
  (forall a, In a l -> 0 <= f a) ->
  (forall a, In a l -> P a = true -> c <= f a) ->
  c * INR (length (filter P l)) <= Rsum f l.
Proof.
  induction l as [|a l IH]; intros H0 Hc; [rewrite Rsum_nil; cbn; lra|].
  rewrite Rsum_cons. cbn [filter].
  assert (IH' : c * INR (length (filter P l)) <= Rsum f l).
  { apply IH; intros b Hb; [apply H0|apply Hc]; now right. }
  pose proof (H0 a (or_introl eq_refl)) as Ha.
  destruct (P a) eqn:E.
  - pose proof (Hc a (or_introl eq_refl) E) as Hca.
    cbn [length]. rewrite S_INR. lra.
  - lra.
Qed.

End Sums.

Lemma Rsum_map {A B : Type} (g : A -> B) (f : B -> R) (l : list A) :
  Rsum f (map g l) = Rsum (fun a => f (g a)) l.
Proof.
  induction l as [|a l IH]; [reflexivity|].
  cbn [map]. now rewrite !Rsum_cons, IH.
Qed.

Lemma Rsum_flat_map {A B : Type} (g : A -> list B) (f : B -> R) (l : list A) :
  Rsum f (flat_map g l) = Rsum (fun a => Rsum f (g a)) l.
Proof.
  induction l as [|a l IH]; cbn [flat_map]; [reflexivity|].
  rewrite Rsum_app, Rsum_cons, IH. reflexivity.
Qed.

Lemma Rsum_tuples_S (f : list R -> R) (D : list R) (n : nat) :
  Rsum f (tuples D (S n)) =
  Rsum (fun u => Rsum (fun rs => f (u :: rs)) (tuples D n)) D.
Proof.
  cbn [tuples]. rewrite Rsum_flat_map. apply Rsum_ext. intros u _.
  apply Rsum_map.
Qed.

Lemma length_as_Rsum {A : Type} (l : list A) : INR (length l) = Rsum (fun _ => 1) l.
Proof.
  rewrite Rsum_const. ring.
Qed.

Lemma tuples_length (D : list R) (n : nat) :
  INR (length (tuples D n)) = INR (length D) ^ n.
Proof.
  induction n as [|n IH]; [cbn; ring|].
  rewrite length_as_Rsum, Rsum_tuples_S.
  rewrite (Rsum_ext _ (fun _ => INR (length D) ^ n)).
  - rewrite Rsum_const. cbn [pow]. ring.
  - intros u _. now rewrite <- length_as_Rsum.
Qed.

Lemma tuples_spec (D : list R) (n : nat) (rs : list R) :
  In rs (tuples D n) -> length rs = n /\ (forall u, In u rs -> In u D).
Proof.
  revert rs. induction n as [|n IH]; intros rs; cbn [tuples].
  - intros [<-|[]]. split; [reflexivity|]. intros u [].
  - intros H. apply in_flat_map in H. destruct H as (u & Hu & H).
    apply in_map_iff in H. destruct H as (rs' & <- & Hrs').
    destruct (IH rs' Hrs') as [Hl Hin]. split; [cbn; now rewrite Hl|].
    intros v [<-|Hv]; [exact Hu|now apply Hin].
Qed.

Section Chebyshev.

Variable D : list R.
Variable h : R -> bool.
Hypothesis D_nonempty : D <> [].

Local Notation "'L'" := (INR (length D)).
Local Notation "'q'" := (mean h D).

Lemma draws_positive : 0 < L.
Proof.
  apply lt_0_INR. destruct D; [contradiction|cbn; lia].
Qed.

Lemma count_cons (u : R) (rs : list R) :
  count h (u :: rs) = indicator h u + count h rs.
Proof.
  unfold count, indicator. cbn [filter]. destruct (h u); cbn [length].
  - rewrite S_INR. ring.
  - ring.
Qed.

Lemma count_as_Rsum (rs : list R) : count h rs = Rsum (indicator h) rs.
Proof.
  induction rs as [|u rs IH]; [reflexivity|].
  rewrite count_cons, IH. reflexivity.
Qed.

Lemma indicator_square (u : R) : indicator h u * indicator h u = indicator h u.
Proof.
  unfold indicator. destruct (h u); ring.
Qed.

Lemma mean_bounds : 0 <= q <= 1.
Proof.
  pose proof draws_positive as HL. unfold mean, count.
  pose proof (filter_length_bound h D) as Hle. apply le_INR in Hle.
  pose proof (pos_INR (length (filter h D))) as H0.
  split.
  - apply Rmult_le_pos; [exact H0|]. left. now apply Rinv_0_lt_compat.
  - apply Rmult_le_reg_r with L; [exact HL|].
    unfold Rdiv. rewrite Rmult_assoc, Rinv_l by lra. lra.
Qed.

Lemma sum_indicator : Rsum (indicator h) D = L * q.
Proof.
  pose proof draws_positive. rewrite <- count_as_Rsum. unfold mean. field. lra.
Qed.

Lemma sum_centered : Rsum (fun u => indicator h u - q) D = 0.
Proof.
  rewrite (Rsum_ext _ (fun u => indicator h u + - q)) by (intros; ring).
  rewrite Rsum_plus, Rsum_const, sum_indicator. ring.
Qed.

Lemma sum_centered_square :
  Rsum (fun u => (indicator h u - q) * (indicator h u - q)) D = L * (q * (1 - q)).
Proof.
  rewrite (Rsum_ext _ (fun u => (1 - 2 * q) * indicator h u + q * q)).
  - rewrite Rsum_plus, Rsum_scal, Rsum_const, sum_indicator. ring.
  - intros u _.
    transitivity (indicator h u * indicator h u - 2 * q * indicator h u + q * q);
      [ring|]. rewrite indicator_square. ring.
Qed.

(** The deviation of the number of hits among [n] draws from its mean. *)
Lemma deviation_cons (n : nat) (u : R) (rs : list R) :
  count h (u :: rs) - INR (S n) * q =
  (indicator h u - q) + (count h rs - INR n * q).
Proof.
  rewrite count_cons, S_INR. ring.
Qed.

Lemma first_moment (n : nat) :
  Rsum (fun rs => count h rs - INR n * q) (tuples D n) = 0.
Proof.
  induction n as [|n IH].
  - cbn. unfold count. cbn. ring.
  - rewrite Rsum_tuples_S.
    rewrite (Rsum_ext _ (fun u => L ^ n * (indicator h u - q))).
    + rewrite Rsum_scal, sum_centered. ring.
    + intros u _.
      rewrite (Rsum_ext _ (fun rs => (indicator h u - q)
                                     + (count h rs - INR n * q)))
        by (intros; apply deviation_cons).
      rewrite Rsum_plus, Rsum_const, IH, tuples_length. ring.
Qed.

Lemma second_moment (n : nat) :
  Rsum (fun rs => (count h rs - INR n * q) * (count h rs - INR n * q)) (tuples D n) =
  INR n * L ^ n * (q * (1 - q)).
Proof.
  induction n as [|n IH].
  - cbn. unfold count. cbn. ring.
  - rewrite Rsum_tuples_S.
    rewrite (Rsum_ext _
               (fun u => L ^ n * ((indicator h u - q) * (indicator h u - q))
                         + INR n * L ^ n * (q * (1 - q)))).
    + rewrite Rsum_plus, Rsum_scal, Rsum_const, sum_centered_square, S_INR.
      cbn [pow]. ring.
    + intros u _.
      rewrite (Rsum_ext _
                 (fun rs => (indicator h u - q) * (indicator h u - q)
                            + (2 * (indicator h u - q) * (count h rs - INR n * q)
                               + (count h rs - INR n * q) * (count h rs - INR n * q)))).
      * rewrite Rsum_plus, Rsum_const, Rsum_plus, Rsum_scal, first_moment, IH,
          tuples_length. ring.
      * intros rs _. rewrite deviation_cons. ring.
Qed.

Lemma ratio_bound (a b c : R) : 0 < b -> 0 < c -> a * c <= b -> a / b <= 1 / c.
Proof.
  intros Hb Hc H.
  replace (a / b) with (a * c * / (b * c)) by (field; lra).
  replace (1 / c) with (b * / (b * c)) by (field; lra).
  apply Rmult_le_compat_r; [|exact H].
  left. apply Rinv_0_lt_compat. now apply Rmult_lt_0_compat.
Qed.

(** Chebyshev's inequality for the fraction of hits among [n] independent
    draws from [D]. *)
Lemma chebyshev (n : nat) (eps : R) :
  (0 < n)%nat -> 0 < eps ->
  share (fun rs => Math.leb eps (Rabs (count h rs / INR n - q))) (tuples D n)
  <= 1 / (4 * INR n * (eps * eps)).
Proof.
  intros Hn He. pose proof draws_positive as HL.
  assert (Hnn : 0 < INR n) by now apply lt_0_INR.
  assert (HLn : 0 < L ^ n) by now apply pow_lt.
  unfold share. rewrite tuples_length.
  set (P := fun rs => Math.leb eps (Rabs (count h rs / INR n - q))).
  set (B := INR (length (filter P (tuples D n)))).
  assert (HB : 0 <= B) by apply pos_INR.
  assert (Hm : (INR n * eps) * (INR n * eps) * B
               <= INR n * L ^ n * (q * (1 - q))).
  { rewrite <- second_moment. apply Rsum_markov.
    - intros rs _. apply Rle_0_sqr.
    - intros rs _ HP. unfold P in HP. apply leb_true in HP.
      set (z := count h rs / INR n - q) in *.
      replace (count h rs - INR n * q) with (INR n * z) by (unfold z; field; lra).
      assert (Hz : z * z = Rabs z * Rabs z).
      { unfold Rabs. destruct (Rcase_abs z); ring. }
      assert (Hy : eps * eps <= Rabs z * Rabs z)
        by (apply Rmult_le_compat; lra).
      replace (INR n * z * (INR n * z)) with (INR n * INR n * (z * z)) by ring.
      replace (INR n * eps * (INR n * eps)) with (INR n * INR n * (eps * eps)) by ring.
      rewrite Hz. apply Rmult_le_compat_l; [|exact Hy].
      apply Rmult_le_pos; lra. }
  assert (Hq : q * (1 - q) <= 1 / 4).
  { pose proof (Rle_0_sqr (q - 1 / 2)) as Hs. unfold Rsqr in Hs. lra. }
  assert (H1 : INR n * (INR n * (eps * eps * B)) <= INR n * (L ^ n * (q * (1 - q))))
    by lra.
  apply Rmult_le_reg_l in H1; [|exact Hnn].
  assert (H2 : L ^ n * (q * (1 - q)) <= L ^ n * (1 / 4))
    by (apply Rmult_le_compat_l; lra).
  apply ratio_bound; [exact HLn| |lra].
  apply Rmult_lt_0_compat; [lra|]. now apply Rmult_lt_0_compat.
Qed.

End Chebyshev.

(** ** The estimate of a run as a fraction of its radius draws *)

Lemma grid_unit (M : nat) (u : R) : In u (grid M) -> 0 <= u < 1.
Proof.
  unfold grid. intros H. apply in_map_iff in H. destruct H as (k & <- & Hk).
  apply in_seq in Hk. assert (Hlt : (k < M)%nat) by lia.
  assert (H0 : 0 < INR M) by (apply lt_0_INR; lia).
  apply lt_INR in Hlt. pose proof (pos_INR k) as Hp.
  assert (E : forall t, t / INR M * INR M = t) by (intros t; field; lra).
  split.
  - apply Rmult_le_pos; [exact Hp|]. left. now apply Rinv_0_lt_compat.
  - apply Rmult_lt_reg_r with (INR M); [exact H0|]. rewrite E. lra.
Qed.

Lemma grid_length (M : nat) : length (grid M) = M.
Proof.
  unfold grid. now rewrite length_map, length_seq.
Qed.

Lemma grid_nonempty (M : nat) : (0 < M)%nat -> grid M <> [].
Proof.
  intros HM E. apply (f_equal (@length R)) in E. rewrite grid_length in E.
  cbn in E. lia.
Qed.

Lemma grid_stratified (M : nat) : radius_draws (Gen.stratified M) M = grid M.
Proof.
  apply stratified_radius_draws.
Qed.

(** The probability that one draw from the grid is at most [c] is within
    [1 / M] of [min(1, c)]. *)
Lemma grid_mean (M : nat) (c : R) :
  (0 < M)%nat -> 0 <= c ->
  Rabs (fraction_below (grid M) c - Rmin 1 c) <= 1 / INR M.
Proof.
  intros HM Hc. destruct (Rle_lt_dec c 1) as [Hle|Hgt].
  - rewrite Rmin_right by exact Hle. rewrite <- grid_stratified.
    apply stratified_discrepancy; [exact HM|lra].
  - rewrite Rmin_left by lra. rewrite fraction_below_all.
    + rewrite Rminus_diag, Rabs_R0. unfold Rdiv. rewrite Rmult_1_l.
      left. apply Rinv_0_lt_compat, lt_0_INR. exact HM.
    + now apply grid_nonempty.
    + intros u Hu. apply grid_unit in Hu. lra.
Qed.

Lemma of_draws_radius_draw (rs : list R) (angles : nat -> R) (i : nat) :
  radius_draw (Gen.of_draws rs angles) i = nth i rs 0.
Proof.
  unfold radius_draw; cbn [Gen.of_draws draws consumed Nat.add].
  now rewrite even_double, Nat.div2_double.
Qed.

Lemma map_nth_seq (rs : list R) :
  map (fun i => nth i rs 0) (seq 0 (length rs)) = rs.
Proof.
  apply nth_ext with (d := nth 0 rs 0) (d' := 0).
  - now rewrite length_map, length_seq.
  - intros i Hi. rewrite length_map, length_seq in Hi.
    rewrite (map_nth (fun i => nth i rs 0) (seq 0 (length rs)) 0%nat i).
    now rewrite seq_nth.
Qed.

Lemma of_draws_radius_draws (rs : list R) (angles : nat -> R) :
  radius_draws (Gen.of_draws rs angles) (length rs) = rs.
Proof.
  unfold radius_draws. rewrite <- (map_nth_seq rs) at 3.
  apply map_ext. intros i. apply of_draws_radius_draw.
Qed.

Lemma hit_iff_draw_nonneg (distance target_size moa : R) (g : rng) (i : nat) :
  0 < max_radius distance moa -> 0 <= radius_draw g i ->
  Sim.is_hit target_size (shot distance moa g i) =
  Math.leb (radius_draw g i) (target_size / 2 / max_radius distance moa).
Proof.
  intros HM Hu. apply eq_true_iff_eq.
  rewrite shot_is_hit, leb_true, shot_radius_value.
  set (M := max_radius distance moa) in *. set (u := radius_draw g i) in *.
  rewrite Rabs_pos_eq by (apply Rmult_le_pos; lra).
  assert (E : target_size / 2 / M * M = target_size / 2) by (field; lra).
  split; intros H.
  - apply Rmult_le_reg_r with M; [exact HM|]. rewrite E. lra.
  - apply Rmult_le_compat_r with (r := M) in H; [|lra]. rewrite E in H. lra.
Qed.

(** The hit probability of a run on the radius draws [rs] is the fraction of
    [rs] that is at most [target_radius / max_radius]. *)
Lemma estimate_value (n cap : Z) (distance target_size moa : R)
      (angles : nat -> R) (rs : list R) :
  (1 <= n)%Z -> 0 < max_radius distance moa ->
  length rs = Z.to_nat n -> (forall u, In u rs -> 0 <= u) ->
  let h := fun u => Math.leb u (target_size / 2 / max_radius distance moa) in
  Sim.hit_probability n cap distance target_size moa (Gen.of_draws rs angles) =
  Returns (count h rs / INR (Z.to_nat n))
  /\ estimate n cap distance target_size moa angles rs =
     count h rs / INR (Z.to_nat n).
Proof.
  intros Hn HM Hlen Hpos h.
  assert (E : Sim.hit_probability n cap distance target_size moa
                (Gen.of_draws rs angles) = Returns (count h rs / INR (Z.to_nat n))).
  { rewrite hit_probability_value by lia. f_equal.
    rewrite INR_to_nat by lia. f_equal.
    unfold hit_count, all_shots, shots_upto, count. rewrite <- INR_IZR_INZ. f_equal.
    rewrite <- (map_nth_seq rs) at 2. rewrite Hlen.
    apply count_map_ext. intros i Hi. apply in_seq in Hi.
    rewrite hit_iff_draw_nonneg, of_draws_radius_draw; [reflexivity|exact HM|].
    rewrite of_draws_radius_draw. apply Hpos, nth_In. lia. }
  split; [exact E|]. unfold estimate. now rewrite E.
Qed.

(** C8, as the program has it.  Let the cone radius be positive, the target
    diameter not negative, and let each radius draw take the [M] values
    [0, 1/M, ..., (M-1)/M] with equal probability, independently of the others
    (the angle draws may be anything).  Then one shot is a hit with a
    probability [q] that is within [1 / M] of
    [min(1, target_radius / max_radius)], the ratio of the radii and not its
    square.  The hit probability that a run of [n >= 1] shots reports is the
    fraction of its radius draws that are at most the ratio, and among all
    [M^n] sequences of radius draws the share of those for which it differs
    from [q] by [eps] or more is at most [1 / (4 n eps^2)]; hence the share of
    those for which it differs by [K / (2 sqrt n)] or more is at most
    [1 / K^2], and for every [eps] the share tends to 0 as [n] grows. *)
Theorem hit_probability_concentrates_on_radius_ratio :
  forall (M : nat) (cap : Z) (distance target_size moa : R) (angles : nat -> R),
    (0 < M)%nat ->
    0 < max_radius distance moa ->
    0 <= target_size ->
    let c := target_size / 2 / max_radius distance moa in
    let q := fraction_below (grid M) c in
    let far := fun (n : Z) (eps : R) =>
      share (fun rs =>
               Math.leb eps
                 (Rabs (estimate n cap distance target_size moa angles rs - q)))
            (tuples (grid M) (Z.to_nat n)) in
    Rabs (q - Rmin 1 c) <= 1 / INR M
    /\ (forall n rs,
           (1 <= n)%Z -> In rs (tuples (grid M) (Z.to_nat n)) ->
           Sim.hit_probability n cap distance target_size moa
             (Gen.of_draws rs angles) =
           Returns (estimate n cap distance target_size moa angles rs)
           /\ radius_draws (Gen.of_draws rs angles) (Z.to_nat n) = rs
           /\ estimate n cap distance target_size moa angles rs =
              fraction_below rs c)
    /\ (forall n eps,
           (1 <= n)%Z -> 0 < eps -> far n eps <= 1 / (4 * IZR n * eps ^ 2))
    /\ (forall n K,
           (1 <= n)%Z -> 0 < K -> far n (K / (2 * sqrt (IZR n))) <= 1 / K ^ 2)
    /\ (forall eps eta,
           0 < eps -> 0 < eta ->
           exists N, forall n, (N <= n)%Z -> far n eps <= eta).
Proof.
  intros M cap distance target_size moa angles HM Hcone Ht c q far.
  assert (Hc : 0 <= c).
  { unfold c, Rdiv. apply Rmult_le_pos; [lra|]. left. now apply Rinv_0_lt_compat. }
  assert (Hest : forall n rs,
             (1 <= n)%Z -> In rs (tuples (grid M) (Z.to_nat n)) ->
             Sim.hit_probability n cap distance target_size moa
               (Gen.of_draws rs angles) =
             Returns (estimate n cap distance target_size moa angles rs)
             /\ length rs = Z.to_nat n
             /\ estimate n cap distance target_size moa angles rs =
                count (fun u => Math.leb u c) rs / INR (Z.to_nat n)).
  { intros n rs Hn Hrs. apply tuples_spec in Hrs. destruct Hrs as [Hlen Hin].
    destruct (estimate_value n cap distance target_size moa angles rs Hn Hcone Hlen)
      as [E1 E2].
    { intros u Hu. apply Hin, grid_unit in Hu. lra. }
    split; [|split; [exact Hlen|exact E2]]. now rewrite E2. }
  assert (Hfar : forall n eps,
             (1 <= n)%Z -> 0 < eps -> far n eps <= 1 / (4 * IZR n * (eps * eps))).
  { intros n eps Hn He. unfold far, share.
    rewrite (filter_ext_in
               (fun rs => Math.leb eps
                  (Rabs (estimate n cap distance target_size moa angles rs - q)))
               (fun rs => Math.leb eps
                  (Rabs (count (fun u => Math.leb u c) rs / INR (Z.to_nat n)
                         - mean (fun u => Math.leb u c) (grid M))))).
    - rewrite <- (INR_to_nat n) by lia.
      apply (chebyshev (grid M) (fun u => Math.leb u c)).
      + now apply grid_nonempty.
      + lia.
      + exact He.
    - intros rs Hrs. destruct (Hest n rs Hn Hrs) as (_ & _ & ->). reflexivity. }
  split; [|split; [|split; [|split]]].
  - apply grid_mean; assumption.
  - intros n rs Hn Hrs. destruct (Hest n rs Hn Hrs) as (E1 & Hlen & E2).
    split; [exact E1|]. split.
    + rewrite <- Hlen. apply of_draws_radius_draws.
    + rewrite E2. unfold fraction_below, count. now rewrite Hlen.
  - intros n eps Hn He. replace (eps ^ 2) with (eps * eps) by ring.
    now apply Hfar.
  - intros n K Hn HK.
    assert (Hn0 : 0 < IZR n) by (apply IZR_lt; lia).
    assert (Hs : 0 < sqrt (IZR n)) by now apply sqrt_lt_R0.
    assert (Hss : sqrt (IZR n) * sqrt (IZR n) = IZR n) by (apply sqrt_sqrt; lra).
    assert (He : 0 < K / (2 * sqrt (IZR n))).
    { apply Rdiv_lt_0_compat; lra. }
    eapply Rle_trans; [apply (Hfar n _ Hn He)|].
    right. f_equal.
    transitivity (K * K * (IZR n / (sqrt (IZR n) * sqrt (IZR n)))); [field; lra|].
    rewrite Hss. field. lra.
  - intros eps eta He Heta.
    set (x := 1 / (4 * (eps * eps) * eta)).
    exists (Z.max 1 (up x)). intros n Hn.
    assert (Hn1 : (1 <= n)%Z) by lia.
    assert (Hup : x < IZR n).
    { destruct (archimed x) as [Hx _]. apply Rlt_le_trans with (IZR (up x)); [lra|].
      apply IZR_le. lia. }
    eapply Rle_trans; [apply (Hfar n eps Hn1 He)|].
    assert (Hk : 0 < 4 * (eps * eps) * eta).
    { apply Rmult_lt_0_compat; [|exact Heta].
      apply Rmult_lt_0_compat; [lra|]. now apply Rmult_lt_0_compat. }
    assert (Hx1 : x * (4 * (eps * eps) * eta) = 1) by (unfold x; field; lra).
    assert (Hprod : 1 < IZR n * (4 * (eps * eps) * eta)).
    { rewrite <- Hx1. apply Rmult_lt_compat_r; assumption. }
    assert (Hn0 : 0 < IZR n) by (apply IZR_lt; lia).
    assert (Hd : 0 < 4 * IZR n * (eps * eps)).
    { apply Rmult_lt_0_compat; [lra|]. now apply Rmult_lt_0_compat. }
    apply Rmult_le_reg_r with (4 * IZR n * (eps * eps)); [exact Hd|].
    replace (1 / (4 * IZR n * (eps * eps)) * (4 * IZR n * (eps * eps))) with 1
      by (field; lra).
    lra.
Qed.

(** A grid of 1000 points, the cone radius 1 and the target radius 1/2: among
    the sequences of 10000 radius draws, at most a four-hundredth give a hit
    probability that is 1/10 or more away from the probability of one hit. *)
Lemma hit_probability_concentrates_on_radius_ratio_witness :
  share (fun rs =>
           Math.leb (1 / 10)
             (Rabs (estimate simulation_shots shots 1 1 10800 (fun _ => 0) rs
                    - fraction_below (grid 1000) (1 / 2 / max_radius 1 10800))))
        (tuples (grid 1000) (Z.to_nat simulation_shots))
  <= 1 / (4 * IZR simulation_shots * (1 / 10) ^ 2).
Proof.
  assert (HM : (0 < 1000)%nat) by lia.
  assert (Hcone : 0 < max_radius 1 10800) by (rewrite max_radius_quarter_turn; lra).
  assert (Hn : (1 <= simulation_shots)%Z) by (unfold simulation_shots; lia).
  assert (He : 0 < 1 / 10) by lra.
  destruct (hit_probability_concentrates_on_radius_ratio 1000 shots 1 1 10800
              (fun _ => 0) HM Hcone Rle_0_1) as (_ & _ & H & _).
  exact (H simulation_shots (1 / 10) Hn He).
Defined.

(** * Further properties of [simulate_shots] *)

(** ** The number in the title *)

Lemma round_half_even_cases (x : R) :
  Math.round_half_even x = Int_part x \/
  (Math.round_half_even x = (Int_part x + 1)%Z /\ 1 / 2 <= x - IZR (Int_part x)).
Proof.
  unfold Math.round_half_even.
  destruct (Rlt_dec (x - IZR (Int_part x)) (1 / 2)) as [Hlt|Hge]; [now left|].
  destruct (Rlt_dec (1 / 2) (x - IZR (Int_part x))) as [Hgt|Hle].
  - right. split; [reflexivity|lra].
  - destruct (Z.even (Int_part x)); [now left|]. right. split; [reflexivity|lra].
Qed.

Lemma round_half_even_error (x : R) :
  Rabs (IZR (Math.round_half_even x) - x) <= 1 / 2.
Proof.
  pose proof (base_Int_part x) as [Hlo Hhi].
  unfold Math.round_half_even.
  destruct (Rlt_dec (x - IZR (Int_part x)) (1 / 2)) as [Hlt|Hge].
  - apply Rabs_le. lra.
  - destruct (Rlt_dec (1 / 2) (x - IZR (Int_part x))) as [Hgt|Hle].
    + rewrite plus_IZR. apply Rabs_le. lra.
    + destruct (Z.even (Int_part x)); [|rewrite plus_IZR]; apply Rabs_le; lra.
Qed.

Lemma round_half_even_between (a b : Z) (x : R) :
  IZR a <= x <= IZR b -> (a <= Math.round_half_even x <= b)%Z.
Proof.
  intros [Ha Hb]. pose proof (base_Int_part x) as [Hlo Hhi].
  assert (Haf : (a <= Int_part x)%Z).
  { apply Z.lt_succ_r, lt_IZR. rewrite succ_IZR. lra. }
  destruct (round_half_even_cases x) as [E|[E Hd]]; rewrite E.
  - split; [exact Haf|]. apply le_IZR. lra.
  - split; [lia|]. apply Z.le_succ_l, lt_IZR. lra.
Qed.

(** X1.  For a run of [n >= 1] shots, whatever [n] is, the number printed in
    the title is a whole number of hundredths, lies between 0 and 100, and
    differs from the exact percentage [100 * hits / n] by at most 0.005. *)
Theorem title_percent_accuracy :
  forall (n cap : Z) (distance target_size moa : R) (g : rng),
    (1 <= n)%Z ->
    exists fig,
      fst (Sim.simulate_shots n cap distance target_size moa g) = Returns [fig]
      /\ (exists z : Z, (0 <= z <= 10000)%Z /\ title_percent fig = IZR z / 100)
      /\ 0 <= title_percent fig <= 100
      /\ Rabs (title_percent fig
               - 100 * (IZR (hit_count n distance target_size moa g) / IZR n))
         <= 5 / 1000.
Proof.
  intros n cap distance target_size moa g Hn.
  rewrite simulate_shots_value by lia. eexists. split; [reflexivity|].
  cbn [title_percent Sim.build_figure].
  pose proof (hit_ratio_bounds n distance target_size moa g Hn) as Hp.
  set (p := IZR (hit_count n distance target_size moa g) / IZR n) in *.
  unfold Math.round. replace (10 ^ 2) with 100 by (simpl; ring).
  set (x := p * 100 * 100).
  assert (Hx : IZR 0 <= x <= IZR 10000) by (unfold x; lra).
  pose proof (round_half_even_between 0 10000 x Hx) as Hz.
  pose proof (round_half_even_error x) as He.
  set (z := Math.round_half_even x) in *.
  destruct Hz as [Hz0 Hz1]. apply IZR_le in Hz0 as Hr0. apply IZR_le in Hz1 as Hr1.
  split; [|split].
  - exists z. split; [lia|reflexivity].
  - lra.
  - apply Rabs_le_between in He. apply Rabs_le. unfold x in He. lra.
Qed.

(** A run of three shots, whose exact percentage need not have two
    decimals. *)
Lemma title_percent_accuracy_witness :
  exists fig,
    fst (Sim.simulate_shots 3 shots 1000 (3 / 10) 4 (Gen.constant (1 / 2))) =
    Returns [fig]
    /\ 0 <= title_percent fig <= 100.
Proof.
  assert (Hn : (1 <= 3)%Z) by lia.
  destruct (title_percent_accuracy 3 shots 1000 (3 / 10) 4 (Gen.constant (1 / 2)) Hn)
    as (fig & Hf & _ & Hb & _).
  exists fig. split; [exact Hf|exact Hb].
Defined.

(** ** The plot: the circle and the dots *)

Lemma figure_traces (n cap : Z) (distance target_size moa : R) (g : rng) :
  (n <> 0)%Z ->
  exists fig,
    fst (Sim.simulate_shots n cap distance target_size moa g) = Returns [fig]
    /\ displayed_hits fig =
       filter (Sim.is_hit target_size)
              (firstn (Z.to_nat cap) (all_shots n distance moa g))
    /\ displayed_misses fig =
       filter (is_miss target_size)
              (firstn (Z.to_nat cap) (all_shots n distance moa g))
    /\ shapes fig =
       [ {| x0 := - (target_size / 2); y0 := - (target_size / 2);
            x1 := target_size / 2; y1 := target_size / 2 |} ].
Proof.
  intros Hn. rewrite simulate_shots_value by exact Hn. eexists.
  split; [reflexivity|].
  unfold displayed_hits, displayed_misses, Sim.build_figure, state_after;
    cbn [data shapes scatter_x scatter_y
         Sim.hits_x Sim.hits_y Sim.misses_x Sim.misses_y].
  rewrite !combine_fst_snd. repeat split; reflexivity.
Qed.

(** X2.  In the figure of a run (of [n <> 0] shots) the only shape is the
    circle centred on the origin whose diameter is the target diameter; every
    green dot of the "Hits" trace lies in or on that circle, and every red dot
    of the "Misses" trace lies strictly outside it. *)
Theorem dots_and_circle :
  forall (n cap : Z) (distance target_size moa : R) (g : rng),
    (n <> 0)%Z ->
    exists fig c,
      fst (Sim.simulate_shots n cap distance target_size moa g) = Returns [fig]
      /\ shapes fig = [c]
      /\ x0 c = - x1 c /\ y0 c = - y1 c /\ x1 c = y1 c
      /\ x1 c - x0 c = target_size
      /\ (forall q, In q (displayed_hits fig) -> distance_from_centre q <= x1 c)
      /\ (forall q, In q (displayed_misses fig) -> x1 c < distance_from_centre q).
Proof.
  intros n cap distance target_size moa g Hn.
  destruct (figure_traces n cap distance target_size moa g Hn)
    as (fig & Hf & Hh & Hm & Hs).
  exists fig. eexists. split; [exact Hf|]. split; [exact Hs|].
  cbn [x0 y0 x1 y1]. rewrite Hh, Hm.
  split; [reflexivity|]. split; [reflexivity|]. split; [reflexivity|].
  split; [field|]. split.
  - intros [x y] Hq. apply filter_In in Hq. destruct Hq as [_ Hq].
    now apply is_hit_iff in Hq.
  - intros [x y] Hq. apply filter_In in Hq. destruct Hq as [_ Hq].
    unfold is_miss in Hq. apply negb_true_iff in Hq.
    now apply is_hit_false_iff in Hq.
Qed.

(** The reference scenario. *)
Lemma dots_and_circle_witness :
  exists fig c,
    fst (simulate_shots 1000 (3 / 10) 4 (Gen.constant (1 / 2))) = Returns [fig]
    /\ shapes fig = [c]
    /\ x1 c - x0 c = 3 / 10.
Proof.
  assert (Hn : (simulation_shots <> 0)%Z) by discriminate.
  destruct (dots_and_circle simulation_shots shots 1000 (3 / 10) 4
              (Gen.constant (1 / 2)) Hn) as (fig & c & Hf & Hs & _ & _ & _ & Hd & _).
  exists fig, c. split; [exact Hf|]. split; [exact Hs|exact Hd].
Defined.

(** ** Every shot lands in the dispersion cone *)

Lemma shot_distance (distance moa : R) (g : rng) (i : nat) :
  distance_from_centre (shot distance moa g i) =
  Rabs (max_radius distance moa) * Rabs (radius_draw g i).
Proof.
  unfold distance_from_centre. rewrite shot_value; cbn [fst snd].
  rewrite polar_distance, shot_radius_value. apply Rabs_mult.
Qed.

(** X3.  When the generator's values lie in [[0, 1)], every landing point of
    a run is at a distance from the centre of at most the cone radius
    [|distance * sin(radians(moa / 60) / 2)|], which in turn is at most
    [|distance|]; the distance is the cone radius times the radius draw. *)
Theorem shots_within_cone :
  forall (n : Z) (distance moa : R) (g : rng),
    unit_range g ->
    Rabs (max_radius distance moa) <= Rabs distance
    /\ (forall i,
           distance_from_centre (shot distance moa g i) =
           Rabs (max_radius distance moa) * radius_draw g i)
    /\ (forall q,
           In q (all_shots n distance moa g) ->
           distance_from_centre q <= Rabs (max_radius distance moa)).
Proof.
  intros n distance moa g Hg.
  assert (Hu : forall i, 0 <= radius_draw g i < 1) by (intros i; apply Hg).
  assert (Hd : forall i, distance_from_centre (shot distance moa g i) =
                         Rabs (max_radius distance moa) * radius_draw g i).
  { intros i. rewrite shot_distance, (Rabs_pos_eq (radius_draw g i)); [reflexivity|].
    apply Hu. }
  split; [|split].
  - unfold max_radius. rewrite Rabs_mult.
    rewrite <- (Rmult_1_r (Rabs distance)) at 2.
    apply Rmult_le_compat_l; [apply Rabs_pos|].
    apply Rabs_le. apply SIN_bound.
  - exact Hd.
  - intros q Hq. apply in_all_shots in Hq. destruct Hq as (i & _ & ->).
    rewrite Hd. rewrite <- (Rmult_1_r (Rabs _)) at 2.
    apply Rmult_le_compat_l; [apply Rabs_pos|]. pose proof (Hu i). lra.
Qed.

Lemma shots_within_cone_witness :
  Rabs (max_radius 1000 4) <= Rabs 1000.
Proof.
  assert (H : unit_range (Gen.constant (1 / 2))) by (apply constant_unit_range; lra).
  exact (proj1 (shots_within_cone simulation_shots 1000 4 (Gen.constant (1 / 2)) H)).
Defined.

(** ** When the function raises, and how many draws it uses *)

Lemma simulate_shots_gen (n cap : Z) (distance target_size moa : R) (g : rng) :
  snd (Sim.simulate_shots n cap distance target_size moa g) =
  skip (2 * Z.to_nat n) g.
Proof.
  unfold Sim.simulate_shots. rewrite run_loop_gen.
  destruct (truediv _ n); reflexivity.
Qed.

(** X4.  How a run ends, with the overflow of [** 2] taken into account
    and for all values of the arguments and of the two globals.  If a square
    [x**2] or [y**2] leaves the float range in some iteration, the function
    raises [OverflowError] in the first such iteration, having used two draws
    for every iteration up to and including that one.  Otherwise it uses two
    draws for each of its [max(0, simulation_shots)] iterations; then with
    [simulation_shots = 0] it raises [ZeroDivisionError] (no draw used), and
    with any other value it returns a list of exactly one figure.  No square
    overflows when the generator's values lie in [[0, 1)] and the distance has
    magnitude at most [10^150]. *)
Theorem how_a_run_ends :
  forall (n cap : Z) (distance target_size moa : R) (g : rng),
    (forall i,
        first_overflow distance moa g (Z.to_nat n) = Some i ->
        (i < Z.to_nat n)%nat
        /\ (Float.overflow_threshold <= fst (shot distance moa g i) ^ 2
            \/ Float.overflow_threshold <= snd (shot distance moa g i) ^ 2)
        /\ (forall j, (j < i)%nat ->
                      fst (shot distance moa g j) ^ 2 < Float.overflow_threshold
                      /\ snd (shot distance moa g j) ^ 2 < Float.overflow_threshold)
        /\ Checked.simulate_shots n cap distance target_size moa g =
           (Raises OverflowError, skip (2 * S i) g))
    /\ (first_overflow distance moa g (Z.to_nat n) = None ->
        n = 0%Z ->
        Checked.simulate_shots n cap distance target_size moa g =
        (Raises ZeroDivisionError, g))
    /\ (first_overflow distance moa g (Z.to_nat n) = None ->
        n <> 0%Z ->
        exists fig,
          Checked.simulate_shots n cap distance target_size moa g =
          (Returns [fig], skip (2 * Z.to_nat n) g))
    /\ (unit_range g -> Rabs distance <= 10 ^ 150 ->
        first_overflow distance moa g (Z.to_nat n) = None).
Proof.
  intros n cap distance target_size moa g. split; [|split; [|split]].
  - intros i Hi. pose proof (first_overflow_spec distance moa g _ i Hi)
      as (Hlt & Ht & Hb).
    split; [exact Hlt|]. split; [now apply shot_overflows_iff|]. split.
    + intros j Hj. specialize (Hb j Hj).
      destruct (Rlt_le_dec (fst (shot distance moa g j) ^ 2) Float.overflow_threshold)
        as [Hx|Hx];
        [|assert (shot_overflows distance moa g j = true)
            by (apply shot_overflows_iff; now left); congruence].
      destruct (Rlt_le_dec (snd (shot distance moa g j) ^ 2) Float.overflow_threshold)
        as [Hy|Hy];
        [|assert (shot_overflows distance moa g j = true)
            by (apply shot_overflows_iff; now right); congruence].
      split; assumption.
    + now apply checked_overflow.
  - intros Hnone ->. rewrite checked_no_overflow by exact Hnone.
    apply zero_simulation_shots.
  - intros Hnone Hn. rewrite checked_no_overflow by exact Hnone.
    rewrite simulate_shots_value by exact Hn. eexists. reflexivity.
  - intros Hg Hd. now apply first_overflow_none_in_range.
Qed.

(** At distance [2^600] with 10800 MOA and every draw equal to one half, the
    first shot lands at [x = - 2^599]: the run ends with [OverflowError] in its
    first iteration, two draws used. *)
Lemma huge_distance_overflows :
  Checked.simulate_shots simulation_shots shots (2 ^ 600) (3 / 10) 10800
    (Gen.constant (1 / 2)) =
  (Raises OverflowError, skip 2 (Gen.constant (1 / 2))).
Proof.
  apply (checked_overflow simulation_shots shots (2 ^ 600) (3 / 10) 10800
           (Gen.constant (1 / 2)) 0).
  unfold first_overflow.
  destruct (Z.to_nat simulation_shots) as [|k] eqn:E;
    [unfold simulation_shots in E; lia|].
  cbn [seq find].
  assert (H : shot_overflows (2 ^ 600) 10800 (Gen.constant (1 / 2)) 0 = true).
  { apply shot_overflows_iff. left.
    rewrite shot_value; cbn [fst]. rewrite shot_radius_value, constant_radius_draw.
    assert (HM : max_radius (2 ^ 600) 10800 = 2 ^ 600).
    { unfold max_radius. rewrite half_angle.
      replace (10800 * (PI / 21600)) with (PI / 2) by field.
      rewrite sin_PI2. ring. }
    rewrite HM. unfold angle_draw; cbn [Gen.constant draws].
    replace (2 * PI * (1 / 2)) with PI by field. rewrite cos_PI.
    replace ((2 ^ 600 * (1 / 2) * -1) ^ 2) with ((2 ^ 599) ^ 2)
      by (change (2 ^ 600) with (2 * 2 ^ 599); field).
    rewrite overflow_threshold_value, !pow_IZR. apply IZR_le.
    vm_compute. discriminate. }
  now rewrite H.
Qed.

(** ** What the display cap changes, and what it leaves alone *)

Lemma shown_prefix (n cap : Z) (distance moa : R) (g : rng) :
  (cap <= n)%Z ->
  firstn (Z.to_nat cap) (all_shots n distance moa g) =
  shots_upto distance moa g (Z.to_nat cap).
Proof.
  intros H. unfold all_shots, shots_upto. rewrite firstn_seq_map.
  do 2 f_equal. lia.
Qed.

(** X5.  The global [shots] only selects what is plotted: two runs that
    differ in [shots] alone have the same hit probability, the same title and
    circle, and use the same draws; and with [shots <= 0] both traces are
    empty. *)
Theorem display_cap_only_selects_dots :
  forall (n cap cap' : Z) (distance target_size moa : R) (g : rng),
    Sim.hit_probability n cap distance target_size moa g =
    Sim.hit_probability n cap' distance target_size moa g
    /\ snd (Sim.simulate_shots n cap distance target_size moa g) =
       snd (Sim.simulate_shots n cap' distance target_size moa g)
    /\ (forall fig,
           fst (Sim.simulate_shots n cap distance target_size moa g) = Returns [fig] ->
           exists fig',
             fst (Sim.simulate_shots n cap' distance target_size moa g) = Returns [fig']
             /\ title_percent fig' = title_percent fig
             /\ shapes fig' = shapes fig)
    /\ (forall fig,
           (cap <= 0)%Z ->
           fst (Sim.simulate_shots n cap distance target_size moa g) = Returns [fig] ->
           displayed_hits fig = [] /\ displayed_misses fig = []).
Proof.
  intros n cap cap' distance target_size moa g.
  split; [|split; [|split]].
  - unfold Sim.hit_probability. now rewrite !run_loop_hits.
  - now rewrite !simulate_shots_gen.
  - intros fig Hf. destruct (Z.eq_dec n 0) as [E|E].
    + subst n. rewrite zero_simulation_shots in Hf. discriminate Hf.
    + rewrite simulate_shots_value in Hf |- * by exact E. cbn [fst] in *.
      injection Hf as <-. eexists. split; [reflexivity|]. split; reflexivity.
  - intros fig Hcap Hf. destruct (Z.eq_dec n 0) as [E|E].
    + subst n. rewrite zero_simulation_shots in Hf. discriminate Hf.
    + destruct (figure_traces n cap distance target_size moa g E)
        as (fig0 & Hf0 & Hh & Hm & _).
      rewrite Hf in Hf0. injection Hf0 as <-. rewrite Hh, Hm.
      replace (Z.to_nat cap) with 0%nat by lia. split; reflexivity.
Qed.

(** X6.  The two traces depend on the first [shots] shots only: two runs on
    the same generator with different numbers of shots, each at least [shots]
    (and not 0), plot the same dots; only the title differs. *)
Theorem plot_uses_first_shots_only :
  forall (n n' cap : Z) (distance target_size moa : R) (g : rng),
    (n <> 0)%Z -> (n' <> 0)%Z -> (cap <= n)%Z -> (cap <= n')%Z ->
    exists fig fig',
      fst (Sim.simulate_shots n cap distance target_size moa g) = Returns [fig]
      /\ fst (Sim.simulate_shots n' cap distance target_size moa g) = Returns [fig']
      /\ data fig = data fig'
      /\ shapes fig = shapes fig'.
Proof.
  intros n n' cap distance target_size moa g Hn Hn' Hc Hc'.
  rewrite !simulate_shots_value by assumption. do 2 eexists.
  split; [reflexivity|]. split; [reflexivity|]. split; [|reflexivity].
  unfold Sim.build_figure, state_after;
    cbn [data Sim.hits_x Sim.hits_y Sim.misses_x Sim.misses_y].
  fold (all_shots n distance moa g). fold (all_shots n' distance moa g).
  now rewrite !shown_prefix by assumption.
Qed.

(** The module's run of 10000 shots and a run of 200 shots plot the same 100
    dots. *)
Lemma plot_uses_first_shots_only_witness :
  exists fig fig',
    fst (simulate_shots 1000 (3 / 10) 4 (Gen.constant (1 / 2))) = Returns [fig]
    /\ fst (Sim.simulate_shots 200 shots 1000 (3 / 10) 4 (Gen.constant (1 / 2))) =
       Returns [fig']
    /\ data fig = data fig'.
Proof.
  assert (H1 : (simulation_shots <> 0)%Z) by discriminate.
  assert (H2 : (200 <> 0)%Z) by discriminate.
  assert (H3 : (shots <= simulation_shots)%Z) by (unfold shots, simulation_shots; lia).
  assert (H4 : (shots <= 200)%Z) by (unfold shots; lia).
  destruct (plot_uses_first_shots_only simulation_shots 200 shots 1000 (3 / 10) 4
              (Gen.constant (1 / 2)) H1 H2 H3 H4) as (fig & fig' & Hf & Hf' & Hd & _).
  exists fig, fig'. split; [exact Hf|]. split; [exact Hf'|exact Hd].
Defined.

(** ** Splitting a run *)

Lemma shot_skip (distance moa : R) (g : rng) (k i : nat) :
  shot distance moa (skip (2 * k) g) i = shot distance moa g (k + i).
Proof.
  unfold shot. rewrite skip_skip. do 3 f_equal. lia.
Qed.

Lemma map_seq_shift {A : Type} (f : nat -> A) (k j s : nat) :
  map f (seq (k + s) j) = map (fun i => f (k + i)%nat) (seq s j).
Proof.
  revert s. induction j as [|j IH]; intros s; cbn [seq map]; [reflexivity|].
  f_equal. rewrite <- Nat.add_succ_r. apply IH.
Qed.

Lemma shots_upto_add (distance moa : R) (g : rng) (k j : nat) :
  shots_upto distance moa g (k + j) =
  shots_upto distance moa g k ++ shots_upto distance moa (skip (2 * k) g) j.
Proof.
  unfold shots_upto. rewrite seq_app, map_app. f_equal.
  rewrite (Nat.add_comm 0 k), map_seq_shift. apply map_ext.
  intros i. symmetry. apply shot_skip.
Qed.

(** X7.  A run of [n + k] shots is a run of [n] shots followed by a run of
    [k] shots on the generator the first run leaves behind: the hit counters
    add up, and the generator at the end is the same. *)
Theorem run_splits :
  forall (n k cap cap' cap'' : Z) (distance target_size moa : R) (g : rng),
    (0 <= n)%Z -> (0 <= k)%Z ->
    let first := Sim.run_loop n cap' distance target_size moa g in
    let second := Sim.run_loop k cap'' distance target_size moa (Sim.gen first) in
    let whole := Sim.run_loop (n + k) cap distance target_size moa g in
    Sim.hits whole = (Sim.hits first + Sim.hits second)%Z
    /\ Sim.gen whole = Sim.gen second.
Proof.
  intros n k cap cap' cap'' distance target_size moa g Hn Hk first second whole.
  subst first second whole. rewrite !run_loop_hits, !run_loop_gen. split.
  - unfold hit_count, all_shots. rewrite Z2Nat.inj_add by assumption.
    rewrite shots_upto_add, filter_app, length_app. lia.
  - rewrite skip_skip. f_equal. lia.
Qed.

(** A run of 10000 shots as a run of 100 followed by a run of 9900. *)
Lemma run_splits_witness :
  Sim.hits (Sim.run_loop (100 + 9900) shots 1000 (3 / 10) 4 (Gen.constant (1 / 2))) =
  (Sim.hits (Sim.run_loop 100 shots 1000 (3 / 10) 4 (Gen.constant (1 / 2)))
   + Sim.hits
       (Sim.run_loop 9900 shots 1000 (3 / 10) 4
          (Sim.gen (Sim.run_loop 100 shots 1000 (3 / 10) 4 (Gen.constant (1 / 2))))))%Z.
Proof.
  assert (H1 : (0 <= 100)%Z) by lia.
  assert (H2 : (0 <= 9900)%Z) by lia.
  exact (proj1 (run_splits 100 9900 shots shots shots 1000 (3 / 10) 4
                  (Gen.constant (1 / 2)) H1 H2)).
Defined.

(** ** Symmetries *)

Lemma max_radius_neg_distance (distance moa : R) :
  max_radius (- distance) moa = - max_radius distance moa.
Proof.
  unfold max_radius. ring.
Qed.

Lemma max_radius_neg_moa (distance moa : R) :
  max_radius distance (- moa) = - max_radius distance moa.
Proof.
  unfold max_radius. rewrite !half_angle.
  replace (- moa * (PI / 21600)) with (- (moa * (PI / 21600))) by ring.
  rewrite sin_neg. ring.
Qed.

Lemma shot_opposite (d m d' m' : R) (g : rng) (i : nat) :
  max_radius d' m' = - max_radius d m ->
  shot d' m' g i = (- fst (shot d m g i), - snd (shot d m g i)).
Proof.
  intros H. rewrite !shot_value, !shot_radius_value, H; cbn [fst snd].
  f_equal; ring.
Qed.

Lemma is_hit_opposite (target_size : R) (q : R * R) :
  Sim.is_hit target_size (- fst q, - snd q) = Sim.is_hit target_size q.
Proof.
  destruct q as [x y]. unfold Sim.is_hit; cbn [fst snd]. do 2 f_equal. ring.
Qed.

(** X8.  Changing the sign of the distance, or of the dispersion, reflects
    every landing point through the centre of the target and leaves the hit
    counter and the hit probability as they were. *)
Theorem sign_reflects_the_shots :
  forall (n cap : Z) (distance target_size moa : R) (g : rng),
    (forall i,
        shot (- distance) moa g i =
        (- fst (shot distance moa g i), - snd (shot distance moa g i)))
    /\ (forall i,
           shot distance (- moa) g i =
           (- fst (shot distance moa g i), - snd (shot distance moa g i)))
    /\ Sim.hit_probability n cap (- distance) target_size moa g =
       Sim.hit_probability n cap distance target_size moa g
    /\ Sim.hit_probability n cap distance target_size (- moa) g =
       Sim.hit_probability n cap distance target_size moa g.
Proof.
  intros n cap distance target_size moa g.
  assert (H1 : forall i, shot (- distance) moa g i =
                         (- fst (shot distance moa g i), - snd (shot distance moa g i))).
  { intros i. apply shot_opposite, max_radius_neg_distance. }
  assert (H2 : forall i, shot distance (- moa) g i =
                         (- fst (shot distance moa g i), - snd (shot distance moa g i))).
  { intros i. apply shot_opposite, max_radius_neg_moa. }
  split; [exact H1|]. split; [exact H2|]. split.
  - apply hit_probability_ext. intros i _. rewrite H1. apply is_hit_opposite.
  - apply hit_probability_ext. intros i _. rewrite H2. apply is_hit_opposite.
Qed.

(** X9.  In exact real arithmetic (the model of the floats in [Sim]),
    multiplying the distance and the target diameter by the same positive
    factor leaves the classification of every shot, and so the hit
    probability, as it was on the same draws: only the angle the target is
    seen under matters.  (On floats the products round, and a shot within
    rounding of the edge of the target can change sides.) *)
Theorem scaling_keeps_hit_probability :
  forall (n cap : Z) (distance target_size moa : R) (g : rng) (k : R),
    0 < k ->
    (forall i,
        Sim.is_hit (k * target_size) (shot (k * distance) moa g i) =
        Sim.is_hit target_size (shot distance moa g i))
    /\ Sim.hit_probability n cap (k * distance) (k * target_size) moa g =
       Sim.hit_probability n cap distance target_size moa g.
Proof.
  intros n cap distance target_size moa g k Hk.
  assert (H : forall i,
             Sim.is_hit (k * target_size) (shot (k * distance) moa g i) =
             Sim.is_hit target_size (shot distance moa g i)).
  { intros i. apply eq_true_iff_eq. rewrite !shot_is_hit, !shot_radius_value.
    unfold max_radius. rewrite !Rmult_assoc, (Rabs_mult k), (Rabs_pos_eq k) by lra.
    set (a := Rabs _). split; intros Ha.
    - apply Rmult_le_reg_l with k; [exact Hk|]. lra.
    - apply Rmult_le_compat_l with (r := k) in Ha; lra. }
  split; [exact H|]. apply hit_probability_ext. intros i _. apply H.
Qed.

(** A 30 cm target at 1000 m and a 15 cm target at 500 m. *)
Lemma scaling_keeps_hit_probability_witness :
  Sim.hit_probability simulation_shots shots (1 / 2 * 1000) (1 / 2 * (3 / 10)) 4
    (Gen.constant (1 / 2)) =
  Sim.hit_probability simulation_shots shots 1000 (3 / 10) 4 (Gen.constant (1 / 2)).
Proof.
  assert (Hk : 0 < 1 / 2) by lra.
  exact (proj2 (scaling_keeps_hit_probability simulation_shots shots 1000 (3 / 10) 4
                  (Gen.constant (1 / 2)) (1 / 2) Hk)).
Defined.

(** ** The size of the dispersion cone *)

Lemma sin_le_self (x : R) : 0 <= x -> - x <= sin x <= x.
Proof.
  intros [Hx| <-]; [|rewrite sin_0; lra].
  pose proof (sin_lt_x x Hx) as Hup. split; [|lra].
  destruct (Rle_lt_dec x PI) as [Hle|Hgt].
  - pose proof (sin_ge_0 x (Rlt_le _ _ Hx) Hle). lra.
  - pose proof (SIN_bound x) as [Hlo _]. pose proof PI2_1. lra.
Qed.

Lemma sin_abs_le (x : R) : Rabs (sin x) <= Rabs x.
Proof.
  destruct (Rle_lt_dec 0 x) as [Hx|Hx].
  - rewrite (Rabs_pos_eq x) by exact Hx. apply Rabs_le. now apply sin_le_self.
  - rewrite (Rabs_left x) by exact Hx.
    rewrite <- (Ropp_involutive x) at 1. rewrite sin_neg, Rabs_Ropp.
    apply Rabs_le. apply sin_le_self. lra.
Qed.

Lemma max_radius_abs_bound (distance moa : R) :
  Rabs (max_radius distance moa) <= Rabs distance * Rabs moa * (PI / 21600).
Proof.
  unfold max_radius. rewrite half_angle, Rabs_mult, Rmult_assoc.
  apply Rmult_le_compat_l; [apply Rabs_pos|].
  eapply Rle_trans; [apply sin_abs_le|].
  pose proof PI_RGT_0. rewrite Rabs_mult, (Rabs_pos_eq (PI / 21600)) by lra.
  apply Rle_refl.
Qed.

Lemma max_radius_nonneg (distance moa : R) :
  0 <= distance -> 0 <= moa <= 21600 -> 0 <= max_radius distance moa.
Proof.
  intros Hd [Hm0 Hm1]. unfold max_radius. rewrite half_angle.
  pose proof PI_RGT_0 as Hpi. apply Rmult_le_pos; [exact Hd|].
  apply sin_ge_0.
  - apply Rmult_le_pos; lra.
  - replace PI with (21600 * (PI / 21600)) at 2 by field.
    apply Rmult_le_compat_r; lra.
Qed.

(** X10.  The radius of the dispersion cone, [distance * sin(radians(moa / 60)
    / 2)], is at most [|distance| * |moa| * pi / 21600] in absolute value (the
    small-angle value, [moa / 2] minutes of angle in radians times the
    distance), and it is not negative when the distance is not negative and
    the dispersion lies between 0 and 21600 MOA (a full turn). *)
Theorem cone_radius_bounds :
  forall (distance moa : R),
    Rabs (max_radius distance moa) <= Rabs distance * Rabs moa * (PI / 21600)
    /\ Rabs (max_radius distance moa) <= Rabs distance * Rabs moa / 5400
    /\ (0 <= distance -> 0 <= moa <= 21600 ->
        0 <= max_radius distance moa <= distance * moa * (PI / 21600)).
Proof.
  intros distance moa. pose proof (max_radius_abs_bound distance moa) as H.
  pose proof PI_RGT_0 as Hpi. pose proof PI_4 as Hpi4.
  split; [exact H|]. split.
  - eapply Rle_trans; [exact H|].
    assert (0 <= Rabs distance * Rabs moa)
      by (apply Rmult_le_pos; apply Rabs_pos).
    unfold Rdiv. apply Rmult_le_compat_l; lra.
  - intros Hd Hm. pose proof (max_radius_nonneg distance moa Hd Hm) as H0.
    split; [exact H0|].
    rewrite (Rabs_pos_eq _ H0), (Rabs_pos_eq _ Hd), (Rabs_pos_eq moa) in H by lra.
    exact H.
Qed.

(** ** Sure hits and sure misses *)

Lemma round_hundred : Math.round (1 * 100) 2 = 100.
Proof.
  replace (1 * 100) with (IZR 10000 / 100) by lra.
  rewrite round_two_decimals. lra.
Qed.

Lemma round_zero : Math.round (0 * 100) 2 = 0.
Proof.
  replace (0 * 100) with (IZR 0 / 100) by lra.
  rewrite round_two_decimals. lra.
Qed.

Lemma ten_thousand_in_range (x : R) : Rabs x <= 10000 -> Rabs x <= 10 ^ 150.
Proof.
  intros H. apply Rle_trans with (10 ^ 4); [simpl; lra|].
  apply Rle_pow; [lra|lia].
Qed.

Lemma checked_figure (n cap : Z) (distance target_size moa : R) (g : rng) :
  (n <> 0)%Z -> unit_range g -> Rabs distance <= 10 ^ 150 ->
  exists fig,
    Checked.simulate_shots n cap distance target_size moa g =
    (Returns [fig], skip (2 * Z.to_nat n) g)
    /\ title_percent fig =
       Math.round (IZR (hit_count n distance target_size moa g) / IZR n * 100) 2
    /\ displayed_hits fig =
       filter (Sim.is_hit target_size)
              (firstn (Z.to_nat cap) (all_shots n distance moa g))
    /\ displayed_misses fig =
       filter (is_miss target_size)
              (firstn (Z.to_nat cap) (all_shots n distance moa g)).
Proof.
  intros Hn Hg Hd.
  rewrite checked_no_overflow by now apply first_overflow_none_in_range.
  rewrite simulate_shots_value by exact Hn. eexists. split; [reflexivity|].
  unfold displayed_hits, displayed_misses, Sim.build_figure, state_after;
    cbn [data title_percent scatter_x scatter_y
         Sim.hits_x Sim.hits_y Sim.misses_x Sim.misses_y].
  rewrite !combine_fst_snd. repeat split; reflexivity.
Qed.

(** X11.  When the dispersion cone fits in the target with a nanometre to
    spare, that is, when the cone radius plus [10^-9] is at most the target
    radius, for a distance of magnitude at most 10000, a dispersion of
    magnitude at most 21600 and generator values in [[0, 1)], every shot is a
    hit: a run of [n >= 1] shots returns a figure whose title shows 100 and
    whose "Misses" trace is empty, and its hit probability is 1.  (The margin
    and the two ranges keep the conclusion clear of the rounding of the
    floats, which the model does not have.) *)
Theorem cone_inside_target :
  forall (n cap : Z) (distance target_size moa : R) (g : rng),
    (1 <= n)%Z ->
    unit_range g ->
    Rabs distance <= 10000 ->
    Rabs moa <= 21600 ->
    Rabs (max_radius distance moa) + 1 / 1000000000 <= target_size / 2 ->
    Sim.hit_probability n cap distance target_size moa g = Returns 1
    /\ exists fig,
         Checked.simulate_shots n cap distance target_size moa g =
         (Returns [fig], skip (2 * Z.to_nat n) g)
         /\ title_percent fig = 100
         /\ displayed_misses fig = [].
Proof.
  intros n cap distance target_size moa g Hn Hg Hd _ HM.
  assert (Hall : forall q, In q (all_shots n distance moa g) ->
                           Sim.is_hit target_size q = true).
  { intros q Hq. apply in_all_shots in Hq. destruct Hq as (i & _ & ->).
    apply shot_is_hit. rewrite shot_radius_value, Rabs_mult.
    pose proof (Hg (consumed g + 2 * i)%nat) as Hu. fold (radius_draw g i) in Hu.
    rewrite (Rabs_pos_eq (radius_draw g i)) by lra.
    pose proof (Rabs_pos (max_radius distance moa)) as H0.
    apply Rle_trans with (Rabs (max_radius distance moa)); [|lra].
    rewrite <- (Rmult_1_r (Rabs (max_radius distance moa))) at 2.
    apply Rmult_le_compat_l; lra. }
  assert (Hc : IZR (hit_count n distance target_size moa g) / IZR n = 1).
  { rewrite hit_count_all by (exact Hall || lia). apply Rinv_r, not_0_IZR. lia. }
  split.
  - rewrite hit_probability_value by lia. now rewrite Hc.
  - destruct (checked_figure n cap distance target_size moa g)
      as (fig & Hf & Ht & _ & Hm); [lia|exact Hg|now apply ten_thousand_in_range|].
    exists fig. split; [exact Hf|]. split.
    + rewrite Ht, Hc. apply round_hundred.
    + rewrite Hm. apply filter_none. intros q Hq. apply In_firstn in Hq.
      unfold is_miss. now rewrite (Hall q Hq).
Qed.

(** A 1 m target at 100 m with 4 MOA of dispersion. *)
Lemma cone_inside_target_witness :
  Sim.hit_probability simulation_shots shots 100 1 4 (Gen.constant (1 / 2)) = Returns 1.
Proof.
  assert (Hn : (1 <= simulation_shots)%Z) by (unfold simulation_shots; lia).
  assert (Hg : unit_range (Gen.constant (1 / 2))) by (apply constant_unit_range; lra).
  assert (Hd : Rabs 100 <= 10000) by (rewrite Rabs_pos_eq; lra).
  assert (Hm : Rabs 4 <= 21600) by (rewrite Rabs_pos_eq; lra).
  assert (HM : Rabs (max_radius 100 4) + 1 / 1000000000 <= 1 / 2).
  { pose proof (max_radius_abs_bound 100 4) as H.
    rewrite (Rabs_pos_eq 100), (Rabs_pos_eq 4) in H by lra.
    pose proof PI_4. pose proof PI_RGT_0. lra. }
  exact (proj1 (cone_inside_target simulation_shots shots 100 1 4 (Gen.constant (1 / 2))
                  Hn Hg Hd Hm HM)).
Defined.

(** X12.  With a target diameter of [-10^-300] or less no shot is a hit: for
    a distance of magnitude at most [10^150] and generator values in [[0, 1)],
    a run of [n >= 1] shots returns a figure whose title shows 0 and whose
    "Hits" trace is empty, and its hit probability is 0.  (The bound away
    from 0 keeps [target_size / 2] negative as a float; the bound on the
    distance keeps the squares in range.) *)
Theorem negative_target_never_hit :
  forall (n cap : Z) (distance target_size moa : R) (g : rng),
    (1 <= n)%Z ->
    unit_range g ->
    Rabs distance <= 10 ^ 150 ->
    target_size <= - / 10 ^ 300 ->
    Sim.hit_probability n cap distance target_size moa g = Returns 0
    /\ exists fig,
         Checked.simulate_shots n cap distance target_size moa g =
         (Returns [fig], skip (2 * Z.to_nat n) g)
         /\ title_percent fig = 0
         /\ displayed_hits fig = [].
Proof.
  intros n cap distance target_size moa g Hn Hg Hd Ht.
  assert (Ht0 : target_size < 0).
  { assert (0 < / 10 ^ 300) by (apply Rinv_0_lt_compat, pow_lt; lra). lra. }
  assert (Hnone : forall q, Sim.is_hit target_size q = false).
  { intros [x y]. apply is_hit_false_iff.
    pose proof (sqrt_pos (x ^ 2 + y ^ 2)). lra. }
  assert (Hc : IZR (hit_count n distance target_size moa g) / IZR n = 0).
  { rewrite hit_count_none by (intros q _; apply Hnone). unfold Rdiv. apply Rmult_0_l. }
  split.
  - rewrite hit_probability_value by lia. now rewrite Hc.
  - destruct (checked_figure n cap distance target_size moa g)
      as (fig & Hf & Htitle & Hh & _); [lia|exact Hg|exact Hd|].
    exists fig. split; [exact Hf|]. split.
    + rewrite Htitle, Hc. apply round_zero.
    + rewrite Hh. apply filter_none. intros q _. apply Hnone.
Qed.

(** A target diameter of -1 m at 1000 m. *)
Lemma negative_target_never_hit_witness :
  Sim.hit_probability simulation_shots shots 1000 (-1) 4 (Gen.constant (1 / 2)) =
  Returns 0.
Proof.
  assert (Hn : (1 <= simulation_shots)%Z) by (unfold simulation_shots; lia).
  assert (Hg : unit_range (Gen.constant (1 / 2))) by (apply constant_unit_range; lra).
  assert (Hd : Rabs 1000 <= 10 ^ 150).
  { apply ten_thousand_in_range. rewrite Rabs_pos_eq; lra. }
  assert (Ht : -1 <= - / 10 ^ 300).
  { assert (1 <= 10 ^ 300) by (apply pow_R1_Rle; lra).
    assert (/ 10 ^ 300 <= / 1) by (apply Rinv_le_contravar; lra).
    rewrite Rinv_1 in *. lra. }
  exact (proj1 (negative_target_never_hit simulation_shots shots 1000 (-1) 4
                  (Gen.constant (1 / 2)) Hn Hg Hd Ht)).
Defined.

(** ** The callback on the values of the sliders *)

Lemma slider_offers_range (s : slider) (v : R) :
  0 <= slider_step s -> slider_offers s v -> slider_min s <= v <= slider_max s.
Proof.
  intros Hs [[k ->] Hmax]. split; [|exact Hmax].
  pose proof (pos_INR k). assert (0 <= INR k * slider_step s) by now apply Rmult_le_pos.
  lra.
Qed.

Lemma distance_slider_range (v : R) : slider_offers distance_slider v -> 0 <= v <= 2000.
Proof.
  intros H. apply (slider_offers_range distance_slider v); [cbn; lra|exact H].
Qed.

Lemma target_size_slider_range (v : R) :
  slider_offers target_size_slider v -> 0 <= v <= 1.
Proof.
  intros H. apply (slider_offers_range target_size_slider v); [cbn; lra|exact H].
Qed.

Lemma moa_slider_range (v : R) : slider_offers moa_slider v -> 0 <= v <= 5.
Proof.
  intros H. apply (slider_offers_range moa_slider v); [cbn; lra|exact H].
Qed.

(** The value each slider starts with is one of the values it offers. *)
Lemma slider_defaults_offered :
  slider_offers distance_slider (slider_value distance_slider)
  /\ slider_offers target_size_slider (slider_value target_size_slider)
  /\ slider_offers moa_slider (slider_value moa_slider).
Proof.
  unfold slider_offers. cbn [distance_slider target_size_slider moa_slider
    slider_min slider_max slider_step slider_value].
  repeat split; try lra.
  - exists 20%nat. simpl. lra.
  - exists 6%nat. simpl. lra.
  - exists 40%nat. simpl. lra.
Qed.

(** X13.  For the values the three sliders offer (distance 0 to 2000 m,
    target diameter 0 to 1 m, dispersion 0 to 5 MOA) and generator values in
    [[0, 1)], the callback returns the one figure of [simulate_shots]; the
    cone radius lies in [[0, 2)] metres, so every shot lands less than 2 m
    from the centre; on the same draws a larger value of the dispersion slider
    never gives a larger hit probability, and a larger value of the target
    slider never gives a smaller one. *)
Theorem callback_on_slider_values :
  forall (distance target_size target_size' moa moa' : R) (g : rng),
    unit_range g ->
    slider_offers distance_slider distance ->
    slider_offers target_size_slider target_size ->
    slider_offers target_size_slider target_size' ->
    slider_offers moa_slider moa ->
    slider_offers moa_slider moa' ->
    (exists fig,
        fst (the_callback_function distance target_size moa g) = Returns [fig]
        /\ the_callback_function distance target_size moa g =
           simulate_shots distance target_size moa g)
    /\ 0 <= max_radius distance moa < 2
    /\ (forall q, In q (all_shots simulation_shots distance moa g) ->
                  distance_from_centre q < 2)
    /\ (moa <= moa' ->
        exists p p',
          Sim.hit_probability simulation_shots shots distance target_size moa g =
          Returns p
          /\ Sim.hit_probability simulation_shots shots distance target_size moa' g =
             Returns p'
          /\ p' <= p)
    /\ (target_size <= target_size' ->
        exists p p',
          Sim.hit_probability simulation_shots shots distance target_size moa g =
          Returns p
          /\ Sim.hit_probability simulation_shots shots distance target_size' moa g =
             Returns p'
          /\ p <= p').
Proof.
  intros distance target_size target_size' moa moa' g Hg Hd Ht Ht' Hm Hm'.
  apply distance_slider_range in Hd. apply target_size_slider_range in Ht, Ht'.
  apply moa_slider_range in Hm, Hm'.
  assert (Hn : (1 <= simulation_shots)%Z) by (unfold simulation_shots; lia).
  assert (HM : 0 <= max_radius distance moa < 2).
  { split; [apply max_radius_nonneg; lra|].
    pose proof (max_radius_abs_bound distance moa) as H.
    rewrite (Rabs_pos_eq distance), (Rabs_pos_eq moa) in H by lra.
    pose proof (Rle_abs (max_radius distance moa)) as Ha.
    pose proof PI_4 as Hpi. pose proof PI_RGT_0 as Hpi0.
    assert (Hdm : distance * moa <= 2000 * 5)
      by (apply Rmult_le_compat; lra).
    assert (Hb : distance * moa * (PI / 21600) <= 2000 * 5 * (4 / 21600)).
    { apply Rmult_le_compat; try lra. apply Rmult_le_pos; lra. }
    lra. }
  split; [|split; [exact HM|split; [|split]]].
  - destruct (simulate_shots_returns distance target_size moa g) as [fig Hf].
    exists fig. unfold the_callback_function. rewrite Hf. split; reflexivity.
  - intros q Hq. apply in_all_shots in Hq. destruct Hq as (i & _ & ->).
    rewrite shot_distance. pose proof (Hg (consumed g + 2 * i)%nat) as Hu.
    fold (radius_draw g i) in Hu.
    rewrite (Rabs_pos_eq (max_radius distance moa)), (Rabs_pos_eq (radius_draw g i))
      by lra.
    assert (max_radius distance moa * radius_draw g i <= max_radius distance moa * 1)
      by (apply Rmult_le_compat_l; lra).
    lra.
  - intros Hle.
    destruct (hit_probability_le simulation_shots shots distance target_size moa'
                distance target_size moa g g Hn) as (p' & p & Hp' & Hp & Hpp).
    + intros i _. rewrite !shot_is_hit. intros Hh.
      eapply Rle_trans; [|exact Hh]. apply shot_radius_abs_mono; lra.
    + exists p, p'. split; [exact Hp|]. split; [exact Hp'|exact Hpp].
  - intros Hle.
    apply (hit_probability_le simulation_shots shots distance target_size moa
             distance target_size' moa g g Hn).
    intros i _. rewrite !shot_is_hit. lra.
Qed.

(** The callback on the values the sliders start with. *)
Lemma callback_on_slider_values_witness :
  exists fig,
    fst (the_callback_function (slider_value distance_slider)
           (slider_value target_size_slider) (slider_value moa_slider)
           (Gen.constant (1 / 2))) = Returns [fig].
Proof.
  assert (Hg : unit_range (Gen.constant (1 / 2))) by (apply constant_unit_range; lra).
  destruct slider_defaults_offered as (Hd & Ht & Hm).
  destruct (callback_on_slider_values _ _ _ _ _ _ Hg Hd Ht Ht Hm Hm)
    as [(fig & Hf & _) _].
  exists fig. exact Hf.
Defined.
